(** * Support/resistance detection of [utils/indicators.py]

    A shallow embedding of the peak detector ([_peaks_detection]), the
    proximity grouper ([group_values_nearest]) and the aggregator
    ([_get_support_resistances], [get_supports], [get_resistances]).

    Numbers (Python ints and floats, numpy scalars) are exact rationals
    [Q]: Python's [==] on numbers is [Qeq], its [<] is [Qlt].  Where the
    type of the numbers decides a result (the mean of a bucket of
    [np.int64] peaks is an [np.int64] again), the [dtype] of the series
    is an argument.  A Python list that is passed by reference and
    mutated lives in a [Store]; exceptions are the [Raise] outcome of
    the [Py] monad. *)

From Stdlib Require Import QArith Qabs Qround Qreduction Qpower Lqa.
From Stdlib Require Import Sorted Permutation SetoidList.
From stdpp Require Import list strings.

(** ** Numbers and the built-ins the module calls *)

Module Num.

(** Python's [x < y] on numbers. *)
Definition Qltb (x y : Q) : bool := negb (Qle_bool y x).

(** [x in l] for a list of numbers: a left-to-right scan with [==]. *)
Definition py_in (x : Q) (l : list Q) : bool := existsb (Qeq_bool x) l.

(** [list.sort()] is a stable ascending sort that compares with [<] only.
    The result of a stable sort is determined by its input, so stable
    insertion stands for it: [x], which came before the elements of [l],
    goes in front of the first [y] that is not below it. *)
Fixpoint insert (x : Q) (l : list Q) : list Q :=
  match l with
  | [] => [x]
  | y :: l' => if Qltb y x then y :: insert x l' else x :: y :: l'
  end.

Definition sort (l : list Q) : list Q := foldr insert [] l.

(** Round half to even, to an integer. *)
Definition rint (q : Q) : Z :=
  let f := Qfloor q in
  let r := (q - inject_Z f)%Q in
  if Qltb r (1 # 2) then f
  else if Qltb (1 # 2) r then (f + 1)%Z
  else if Z.even f then f else (f + 1)%Z.

(** [round(x, ndigits)]: the nearest multiple of [10^-ndigits], ties to
    even; [ndigits] may be negative (rounding to tens, hundreds, ...). *)
Definition py_round (x : Q) (ndigits : Z) : Q :=
  Qred (inject_Z (rint (x * 10 ^ ndigits)) / 10 ^ ndigits)%Q.

(** [sum(l) / len(l)] on a non-empty list. *)
Definition average (l : list Q) : Q :=
  Qred (fold_left Qplus l 0 / inject_Z (Z.of_nat (length l)))%Q.

End Num.
Export Num.

(** ** Exceptions, the store of mutable lists, and the [Py] monad *)

Inductive exn : Type :=
| ValueError        (* [min()] of an empty sequence *)
| StatisticsError   (* [mean()] of empty data *)
| InvalidReference. (* a location that was never allocated: no Python
                       program reaches it, the store's lookup is partial *)

Inductive outcome (A : Type) : Type :=
| Ok (a : A)
| Raise (e : exn).
Arguments Ok {A} a.
Arguments Raise {A} e.

Definition obind {A B} (o : outcome A) (k : A -> outcome B) : outcome B :=
  match o with
  | Ok a => k a
  | Raise e => Raise e
  end.

(** A location names a mutable sequence of numbers (a [list], or the
    numpy array of indices [_peaks_detection] returns unrounded). *)
Definition loc : Type := nat.
Definition Store : Type := list (list Q).

Definition Py (A : Type) : Type := Store -> outcome A * Store.

Definition ret {A} (a : A) : Py A := fun s => (Ok a, s).

Definition bind {A B} (m : Py A) (k : A -> Py B) : Py B :=
  fun s =>
    match m s with
    | (Ok a, s') => k a s'
    | (Raise e, s') => (Raise e, s')
    end.

Notation "'let*' x ':=' m 'in' k" := (bind m (fun x => k))
  (at level 10, x name, m at level 100, k at level 200).

Definition lift {A} (o : outcome A) : Py A := fun s => (o, s).

(** A new list object holding [vs]. *)
Definition alloc (vs : list Q) : Py loc :=
  fun s => (Ok (length s), s ++ [vs]).

(** The current contents of the object at [l]. *)
Definition deref (l : loc) : Py (list Q) :=
  fun s =>
    match s !! l with
    | Some vs => (Ok vs, s)
    | None => (Raise InvalidReference, s)
    end.

(** [l.sort()]: the object itself is reordered. *)
Definition list_sort (l : loc) : Py unit :=
  fun s =>
    match s !! l with
    | Some vs => (Ok tt, <[l := sort vs]> s)
    | None => (Raise InvalidReference, s)
    end.

(** ** [scipy.signal.find_peaks] and the built-ins [min] and [mean] *)

Module Scipy.

(** The inner [while i_ahead < i_max and x[i_ahead] == x[i]] of
    [_local_maxima_1d]; [i_ahead] grows by one a turn, so
    [i_max - i_ahead] turns are enough. *)
Fixpoint plateau_end (x : list Q) (xi : Q) (i_max fuel i_ahead : nat) : nat :=
  match fuel with
  | O => i_ahead
  | S fuel' =>
      if (i_ahead <? i_max)%nat && Qeq_bool (nth i_ahead x 0%Q) xi
      then plateau_end x xi i_max fuel' (S i_ahead)
      else i_ahead
  end.

(** The outer [while i < i_max] of [_local_maxima_1d]: a sample above its
    left neighbour starts a plateau; the plateau is a maximum when the
    next different sample is below it, and its midpoint is reported.
    [i] grows every turn, so [len(x)] turns are enough. *)
Fixpoint local_maxima_loop (x : list Q) (i_max fuel i : nat)
    (midpoints : list nat) : list nat :=
  match fuel with
  | O => midpoints
  | S fuel' =>
      if (i <? i_max)%nat then
        if Qltb (nth (i - 1) x 0%Q) (nth i x 0%Q) then
          let i_ahead :=
            plateau_end x (nth i x 0%Q) i_max (i_max - (i + 1)) (i + 1) in
          if Qltb (nth i_ahead x 0%Q) (nth i x 0%Q) then
            local_maxima_loop x i_max fuel' (i_ahead + 1)
              (midpoints ++ [(i + (i_ahead - 1)) / 2])
          else local_maxima_loop x i_max fuel' (i + 1) midpoints
        else local_maxima_loop x i_max fuel' (i + 1) midpoints
      else midpoints
  end.

(** [i = 1], [i_max = x.shape[0] - 1]; on an empty array [i_max] is [-1]
    in the library and [0] here, and the loop is not entered either way. *)
Definition _local_maxima_1d (x : list Q) : list nat :=
  local_maxima_loop x (length x - 1) (length x) 1 [].

(** [find_peaks(x, height=h)[0]]: the local maxima whose sample is at
    least [h]. *)
Definition find_peaks (x : list Q) (height : Q) : list nat :=
  List.filter (fun p => Qle_bool height (nth p x 0%Q)) (_local_maxima_1d x).

End Scipy.
Export Scipy.

(** [min(data)]: the first least element; [ValueError] on no element. *)
Definition py_min (data : list Q) : outcome Q :=
  match data with
  | [] => Raise ValueError
  | d :: rest => Ok (fold_left (fun m y => if Qltb y m then y else m) rest d)
  end.

(** The element type of a numpy array: the series, and with it the
    peaks taken from it, holds 64-bit integers or 64-bit floats. *)
Inductive dtype : Type := Int64 | Float64.

(** [T(value)], the last step of [statistics.mean]: the exact mean goes
    back to the type [T] of the data.  [np.int64] of a fraction drops
    the fractional part; a float keeps the value. *)
Definition convert (T : dtype) (q : Q) : Q :=
  match T with
  | Int64 => inject_Z (Z.quot (Qnum q) (Zpos (Qden q)))
  | Float64 => q
  end.

(** [statistics.mean(data)] on data of type [T]: [StatisticsError] on no
    element, else the mean converted to [T]. *)
Definition mean (T : dtype) (data : list Q) : outcome Q :=
  match data with
  | [] => Raise StatisticsError
  | _ :: _ => Ok (convert T (average data))
  end.

(** ** [_peaks_detection] *)

(** What [_peaks_detection] returns: the array of peak positions that
    [find_peaks] gave, or the list of rounded peak values. *)
Inductive peaks_t : Type :=
| PeakIndices (idx : list nat)
| PeakValues (vals : list Q).

(** The numbers of a returned sequence, as a later caller iterates them. *)
Definition peak_items (p : peaks_t) : list Q :=
  match p with
  | PeakIndices idx => map (fun i => inject_Z (Z.of_nat i)) idx
  | PeakValues vals => vals
  end.

(** [if rounded:] for [rounded] an int or [None]. *)
Definition truthy (rounded : option Z) : bool :=
  match rounded with
  | Some n => negb (n =? 0)%Z
  | None => false
  end.

(** [values] is copied first ([np.copy]), so the caller's array is only
    read: it is an argument by value here. *)
Definition _peaks_detection (values : list Q) (rounded : option Z)
    (direction : string) : outcome peaks_t :=
  let data := values in
  let data := if String.eqb direction "down" then map Qopp data else data in
  obind (py_min data) (fun height =>
  let peaks := find_peaks data height in
  match rounded with
  | Some n =>
      if truthy rounded
      then Ok (PeakValues
                 (map (fun val => Qabs (py_round (nth val data 0%Q) n)) peaks))
      else Ok (PeakIndices peaks)
  | None => Ok (PeakIndices peaks)
  end).

(** ** [group_values_nearest] *)

(** One turn of [for k, v in enumerate(values)] on the state [(il, ol)]. *)
Definition group_step (values : list Q) (closest : Q)
    (st : list Q * list (list Q)) (k : nat) : list Q * list (list Q) :=
  let '(il, ol) := st in
  if (k <=? 0)%nat then (il, ol)
  else if Qltb (Qabs (nth k values 0%Q - nth (k - 1) values 0%Q)) closest then
    let il := if py_in (nth (k - 1) values 0%Q) il then il
              else il ++ [nth (k - 1) values 0%Q] in
    let il := if py_in (nth k values 0%Q) il then il
              else il ++ [nth k values 0%Q] in
    (il, ol)
  else ([], ol ++ [il]).

(** The loop and the final [ol.append(list(il))], on the sorted contents. *)
Definition group_loop (values : list Q) (closest : Q) : list (list Q) :=
  let '(il, ol) :=
    fold_left (group_step values closest) (seq 0 (length values)) ([], []) in
  ol ++ [il].

(** [values] is the caller's list object: [values.sort()] reorders it. *)
Definition group_values_nearest (values : loc) (closest : Q)
    : Py (list (list Q)) :=
  let* _sorted := list_sort values in
  let* vs := deref values in
  ret (group_loop vs closest).

(** ** The aggregator *)

(** [for val in peaks_grouped] with its two [continue]s; the buckets
    hold numbers of type [T]. *)
Fixpoint levels_loop (T : dtype) (peaks_grouped : list (list Q))
    (result : list Q) : outcome (list Q) :=
  match peaks_grouped with
  | [] => Ok result
  | val :: rest =>
      match val with
      | [] => levels_loop T rest result
      | _ :: _ =>
          if (length val <? 3)%nat then levels_loop T rest result
          else obind (mean T val)
                 (fun m => levels_loop T rest (result ++ [m]))
      end
  end.

(** [T] is [values.dtype]: rounding and [abs] keep the type of a sample,
    so the peaks are of type [T] as well. *)
Definition _get_support_resistances (T : dtype) (values : list Q)
    (direction : string) (closest : Q) : Py (list Q) :=
  let* peaks := lift (_peaks_detection values (Some 3%Z) direction) in
  let* peaks_ref := alloc (peak_items peaks) in
  let* peaks_grouped := group_values_nearest peaks_ref closest in
  lift (levels_loop T peaks_grouped []).

Definition get_resistances (T : dtype) (values : list Q) (closest : Q)
    : Py (list Q) :=
  _get_support_resistances T values "up" closest.

Definition get_supports (T : dtype) (values : list Q) (closest : Q)
    : Py (list Q) :=
  _get_support_resistances T values "down" closest.

(** The series of the worked scenario. *)
Definition series : list Q :=
  [1; 3; 1; 4; 1; 5; 1; 4; 1; 5; 1; 3; 1]%Q.

(** The loop of [group_values_nearest] as a recursion over the sorted
    values, [prev] being [values[k - 1]] and the head of the rest
    [values[k]]; [group_loop_scan] shows it is the same loop. *)
Fixpoint scan (closest prev : Q) (rest : list Q) (il : list Q)
    (ol : list (list Q)) : list Q * list (list Q) :=
  match rest with
  | [] => (il, ol)
  | v :: rest' =>
      if Qltb (Qabs (v - prev)) closest then
        let il := if py_in prev il then il else il ++ [prev] in
        let il := if py_in v il then il else il ++ [v] in
        scan closest v rest' il ol
      else scan closest v rest' [] (ol ++ [il])
  end.

(** The neighbours [(values[k - 1], values[k])] of a list. *)
Fixpoint adjacent_pairs (l : list Q) : list (Q * Q) :=
  match l with
  | [] => []
  | a :: t =>
      match t with
      | [] => []
      | b :: _ => (a, b) :: adjacent_pairs t
      end
  end.

(** A pair is far when its difference is at least the threshold. *)
Definition far (closest : Q) (p : Q * Q) : bool :=
  Qle_bool closest (Qabs (snd p - fst p)).

Definition near (closest : Q) (p : Q * Q) : bool :=
  Qltb (Qabs (snd p - fst p)) closest.

Definition far_pairs (closest : Q) (l : list Q) : nat :=
  length (List.filter (far closest) (adjacent_pairs l)).

(** [if x not in il: il.append(x)], as the loop does it twice a turn. *)
Definition appended (x : Q) (il : list Q) : list Q :=
  if py_in x il then il else il ++ [x].

(** [x] equals an end of a pair of neighbours that are near. *)
Definition in_near_pair (closest x : Q) (l : list Q) : Prop :=
  Exists (fun p => near closest p = true /\ (x == fst p \/ x == snd p)%Q)
    (adjacent_pairs l).

(** The array [_peaks_detection] searches: [values], negated for "down". *)
Definition directed (values : list Q) (direction : string) : list Q :=
  if String.eqb direction "down" then map Qopp values else values.

(** Its least element, the [height] given to [find_peaks]. *)
Definition height_of (values : list Q) (direction : string) : Q :=
  match directed values direction with
  | [] => 0%Q
  | d :: rest => fold_left (fun m y => if Qltb y m then y else m) rest d
  end.

(** The positions [find_peaks] reports for it. *)
Definition peak_positions (values : list Q) (direction : string) : list nat :=
  find_peaks (directed values direction) (height_of values direction).

(** The peak values the aggregator works on ([rounded] is 3 there). *)
Definition rounded_peaks (values : list Q) (direction : string) : list Q :=
  map (fun val => Qabs (py_round (nth val (directed values direction) 0%Q) 3))
    (peak_positions values direction).

(** A bucket that passes both tests of the aggregator's loop. *)
Definition confirmed (val : list Q) : bool := (3 <=? length val)%nat.

(** ** The array indicators: [moving_average], [rolling_mean],
       [remove_nan], [ExpMovingAverage], [macd]

    The entries of an array are exact rationals here, where numpy
    rounds the result of every operation to a 64-bit float.  What is
    proved of these functions is therefore the shape of the result (its
    size, where the NaNs are, which entries are copies of which), the
    errors, and which sums, differences and quotients an entry is made
    of; nothing is drawn from identities that rounding breaks. *)

Module Np.

(** What numpy raises in these functions. *)
Inductive error : Type :=
| ValueError   (* an empty operand of [convolve], a negative size, shapes
                  that do not broadcast *)
| IndexError.  (* an index out of bounds *)

Inductive result (A : Type) : Type :=
| Return (a : A)
| Raises (e : error).
Arguments Return {A} a.
Arguments Raises {A} e.

Definition rbind {A B} (r : result A) (k : A -> result B) : result B :=
  match r with
  | Return a => k a
  | Raises e => Raises e
  end.

(** [x / y] on numbers, in lowest terms. *)
Definition py_div (x y : Q) : Q := Qred (x / y).

(** Where a slice bound [i] falls in a sequence of [n] elements: a
    negative bound counts from the end, and both ends are clipped. *)
Definition slice_bound (n : nat) (i : Z) : nat :=
  if (i <? 0)%Z then Z.to_nat (Z.max 0 (Z.of_nat n + i))
  else Nat.min (Z.to_nat i) n.

(** [l[start:]] and [l[:stop]]. *)
Definition slice_from {A} (l : list A) (start : Z) : list A :=
  drop (slice_bound (length l) start) l.

Definition slice_to {A} (l : list A) (stop : Z) : list A :=
  take (slice_bound (length l) stop) l.

(** [np.ones(w)]: a negative size is refused. *)
Definition np_ones (w : Z) : result (list Q) :=
  if (w <? 0)%Z then Raises ValueError
  else Return (replicate (Z.to_nat w) 1%Q).

(** [np.linspace(start, stop, num)]: [num] evenly spaced samples, the
    one sample being [start] when [num] is 1. *)
Definition np_linspace (start stop : Q) (num : Z) : result (list Q) :=
  if (num <? 0)%Z then Raises ValueError
  else Return
    (map (fun i =>
            if (num =? 1)%Z then start
            else (start + inject_Z (Z.of_nat i) *
                            ((stop - start) / inject_Z (num - 1)))%Q)
         (seq 0 (Z.to_nat num))).

(** [np.cumsum]: the running sums. *)
Fixpoint cumsum_from (acc : Q) (l : list Q) : list Q :=
  match l with
  | [] => []
  | x :: l' => (acc + x)%Q :: cumsum_from (acc + x)%Q l'
  end.

Definition np_cumsum (l : list Q) : list Q := cumsum_from 0 l.

(** Entry [k] of the full discrete convolution: the sum of
    [a[j] * v[k - j]] over the [j] for which both exist. *)
Definition conv_at (a v : list Q) (k : nat) : Q :=
  fold_left Qplus
    (map (fun j => (nth j a 0 * nth (k - j) v 0)%Q) (seq 0 (S k))) 0%Q.

Inductive mode : Type := Full | Valid.

(** [np.convolve(a, v, mode)]: an empty operand is refused; "full" has an
    entry for every overlap, "valid" only where the shorter operand lies
    inside the longer. *)
Definition np_convolve (a v : list Q) (m : mode) : result (list Q) :=
  match a, v with
  | [], _ => Raises ValueError
  | _, [] => Raises ValueError
  | _ :: _, _ :: _ =>
      let n := length a in
      let w := length v in
      Return
        (match m with
         | Full => map (conv_at a v) (seq 0 (n + w - 1))
         | Valid =>
             map (conv_at a v)
               (seq (Nat.min n w - 1) (Nat.max n w - Nat.min n w + 1))
         end)
  end.

Definition moving_average (values : list Q) (w : Z) : result (list Q) :=
  rbind (np_ones w) (fun ones =>
  rbind (np_convolve values ones Valid) (fun c =>
  Return (map (fun y => py_div y (inject_Z w)) c))).

(** [np.isnan] on a float that is a number or NaN ([None]). *)
Definition isnan (v : option Q) : bool :=
  match v with
  | None => true
  | Some _ => false
  end.

(** [values[~np.isnan(values)]] *)
Definition remove_nan (values : list (option Q)) : list (option Q) :=
  List.filter (fun v => negb (isnan v)) values.

(** [ret[length:] - ret[:-length]] needs operands of one size here: the
    two differ only when [length] is 0 on a series that is not empty,
    where the second is empty and numpy refuses the subtraction or the
    assignment.  The division by [length] is reached with [length = 0]
    only on an empty array. *)
Definition rolling_mean (values : list Q) (length : Z)
    : result (list (option Q)) :=
  let ret := np_cumsum values in
  let upper := slice_from ret length in
  let lower := slice_to ret (- length) in
  if (List.length upper =? List.length lower)%nat then
    let ret :=
      take (List.length ret - List.length upper) ret ++
      zip_with Qminus upper lower in
    let mva :=
      map (fun r => py_div r (inject_Z length))
        (slice_from ret (length - 1)) in
    let padding := replicate (Z.to_nat length) (@None Q) in
    Return (padding ++ map Some mva)
  else Raises ValueError.

Section Exp.

(** [np.exp] on a float. *)
Variable np_exp : Q -> Q.

(** [a[w]] is read only with [w] positive: a negative [w] is refused by
    [linspace] and [w = 0] leaves [convolve] an empty operand. *)
Definition ExpMovingAverage (values : list Q) (w : Z) : result (list Q) :=
  rbind (np_linspace (-1) 0 w) (fun xs =>
  let weights := map np_exp xs in
  let total := fold_left Qplus weights 0%Q in
  let weights := map (fun x => (x / total)%Q) weights in
  rbind (np_convolve values weights Full) (fun c =>
  let a := slice_to c (Z.of_nat (length values)) in
  match a !! Z.to_nat w with
  | Some a_w => Return (replicate (length (slice_to a w)) a_w ++ slice_from a w)
  | None => Raises IndexError
  end)).

Definition macd (values : list Q)
    : result (list Q * list Q * list Q) :=
  rbind (ExpMovingAverage values 12) (fun emaslow =>
  rbind (ExpMovingAverage values 26) (fun emafast =>
  Return (emaslow, emafast, zip_with Qminus emafast emaslow))).

(** The weights [ExpMovingAverage] convolves with: the samples of
    [np_exp] over [w] evenly spaced points from -1 to 0, over their sum. *)
Definition ema_weights (w : Z) : list Q :=
  match np_linspace (-1) 0 w with
  | Return xs =>
      let weights := map np_exp xs in
      let total := fold_left Qplus weights 0%Q in
      map (fun x => (x / total)%Q) weights
  | Raises _ => []
  end.

End Exp.

End Np.

(** ** Predicates for the further properties *)

(** A list that ascends strictly, in steps below the threshold. *)
Definition chain (closest : Q) (l : list Q) : Prop :=
  Forall (fun p => (fst p < snd p)%Q /\ (snd p - fst p < closest)%Q)
    (adjacent_pairs l).

(** What the scan keeps true on sorted values: [il] is below [prev] and
    ends with it, the closed buckets are a threshold below [prev], and
    all that was appended ascends strictly, in chains. *)
Definition scan_inv (closest prev : Q) (il : list Q) (ol : list (list Q))
    : Prop :=
  Forall (fun y => (y <= prev)%Q) il /\
  Forall (fun y => (y + closest <= prev)%Q) (concat ol) /\
  StronglySorted Qlt (concat ol ++ il) /\
  (il = [] \/ exists il0 e, il = il0 ++ [e] /\ (e == prev)%Q) /\
  chain closest il /\
  Forall (chain closest) ol.

(** [p] is the middle of a plateau [x[l..r]] of equal samples that is
    strictly inside [x] and has a lower sample on either side. *)
Definition plateau_peak (x : list Q) (p : nat) : Prop :=
  exists l r : nat,
    (1 <= l)%nat /\ (l <= r)%nat /\ (r + 1 < length x)%nat /\
    p = ((l + r) / 2)%nat /\
    (nth (l - 1) x 0 < nth l x 0)%Q /\
    (forall j, (l <= j <= r)%nat -> (nth j x 0 == nth l x 0)%Q) /\
    (nth (r + 1) x 0 < nth l x 0)%Q.

(** Two positions with at least one position between them. *)
Definition gap2 (p q : nat) : Prop := (p + 2 <= q)%nat.



(** ** Facts on numbers and sorting *)

Section NumFacts.

Lemma Qltb_lt x y : Qltb x y = true <-> (x < y)%Q.
Proof.
  unfold Qltb. rewrite negb_true_iff. split.
  - intros H. apply Qnot_le_lt. intros Hle.
    apply Qle_bool_iff in Hle. congruence.
  - intros H. destruct (Qle_bool y x) eqn:E; [|reflexivity].
    apply Qle_bool_iff in E. exfalso. apply (Qlt_not_le _ _ H E).
Qed.

Lemma Qltb_ge x y : Qltb x y = false <-> (y <= x)%Q.
Proof. unfold Qltb. rewrite negb_false_iff. apply Qle_bool_iff. Qed.

Lemma near_far c p : near c p = negb (far c p).
Proof. reflexivity. Qed.

Lemma py_in_InA x l : py_in x l = true <-> InA Qeq x l.
Proof.
  unfold py_in. rewrite existsb_exists, InA_alt. split.
  - intros (y & Hy & E). exists y. split; [now apply Qeq_bool_iff | exact Hy].
  - intros (y & E & Hy). exists y. split; [exact Hy | now apply Qeq_bool_iff].
Qed.

Lemma py_in_not_InA x l : py_in x l = false <-> ~ InA Qeq x l.
Proof.
  rewrite <- py_in_InA. destruct (py_in x l); split; intros; congruence.
Qed.

Lemma insert_perm x l : Permutation (insert x l) (x :: l).
Proof.
  induction l as [|y l IH]; cbn; [reflexivity|].
  destruct (Qltb y x); [|reflexivity].
  rewrite IH. apply perm_swap.
Qed.

Lemma sort_perm l : Permutation (sort l) l.
Proof.
  induction l as [|x l IH]; cbn; [reflexivity|].
  rewrite insert_perm. now constructor.
Qed.

Lemma sort_length l : length (sort l) = length l.
Proof. apply Permutation_length, sort_perm. Qed.

Lemma insert_hd x y l :
  (y <= x)%Q -> HdRel Qle y l -> HdRel Qle y (insert x l).
Proof.
  intros Hyx Hl. destruct l as [|z l]; cbn.
  - now constructor.
  - destruct (Qltb z x); constructor; [now inversion Hl | exact Hyx].
Qed.

Lemma insert_sorted x l : Sorted Qle l -> Sorted Qle (insert x l).
Proof.
  induction 1 as [|y l Hs IH Hhd]; cbn.
  - repeat constructor.
  - destruct (Qltb y x) eqn:E.
    + constructor; [exact IH|].
      apply insert_hd; [|exact Hhd].
      apply Qlt_le_weak. now apply Qltb_lt.
    + constructor; [now constructor|].
      constructor. now apply Qltb_ge.
Qed.

Lemma sort_sorted l : Sorted Qle (sort l).
Proof.
  induction l as [|x l IH]; cbn; [constructor | now apply insert_sorted].
Qed.

(** The sort is stable: numbers that are equal keep their order. *)
Lemma insert_stable z x l :
  List.filter (Qeq_bool z) (insert x l) = List.filter (Qeq_bool z) (x :: l).
Proof.
  induction l as [|y l IH]; [reflexivity|].
  cbn [insert]. destruct (Qltb y x) eqn:E; [|reflexivity].
  cbn [List.filter] in *. rewrite IH.
  destruct (Qeq_bool z y) eqn:Ey; [|reflexivity].
  destruct (Qeq_bool z x) eqn:Ex; [exfalso|reflexivity].
  apply Qeq_bool_iff in Ey, Ex. apply Qltb_lt in E. lra.
Qed.

Lemma sort_stable z l :
  List.filter (Qeq_bool z) (sort l) = List.filter (Qeq_bool z) l.
Proof.
  induction l as [|x l IH]; [reflexivity|].
  cbn [sort foldr]. fold (sort l). rewrite insert_stable.
  cbn [List.filter]. now rewrite IH.
Qed.


End NumFacts.

(** ** The grouping loop *)

Section GroupLoop.

Variable closest : Q.

Lemma nth_prev (pre : list Q) prev rest :
  nth (length pre) (pre ++ prev :: rest) 0%Q = prev.
Proof. apply nth_middle. Qed.

Lemma nth_cur (pre : list Q) prev v rest :
  nth (S (length pre)) (pre ++ prev :: v :: rest) 0%Q = v.
Proof.
  replace (pre ++ prev :: v :: rest) with ((pre ++ [prev]) ++ v :: rest)
    by now rewrite <- app_assoc.
  replace (S (length pre)) with (length (pre ++ [prev]))
    by (rewrite length_app; cbn; lia).
  apply nth_middle.
Qed.

Lemma group_step_S pre prev v rest il ol :
  group_step (pre ++ prev :: v :: rest) closest (il, ol) (S (length pre)) =
  scan closest prev [v] il ol.
Proof.
  unfold group_step, scan.
  replace (S (length pre) - 1)%nat with (length pre) by lia.
  rewrite nth_cur, nth_prev. reflexivity.
Qed.

Lemma scan_cons prev v rest il ol :
  scan closest prev (v :: rest) il ol =
  let '(il', ol') := scan closest prev [v] il ol in
  scan closest v rest il' ol'.
Proof. cbn. destruct (Qltb _ _); reflexivity. Qed.

Lemma fold_group_step rest : forall pre prev il ol,
  fold_left (group_step (pre ++ prev :: rest) closest)
    (seq (S (length pre)) (length rest)) (il, ol) =
  scan closest prev rest il ol.
Proof.
  induction rest as [|v rest IH]; intros pre prev il ol; [reflexivity|].
  cbn [length seq fold_left]. rewrite group_step_S, (scan_cons prev v rest).
  destruct (scan closest prev [v] il ol) as [il' ol'].
  specialize (IH (pre ++ [prev]) v il' ol').
  rewrite <- app_assoc, length_app in IH. cbn [length app] in IH.
  replace (length pre + 1)%nat with (S (length pre)) in IH by lia.
  exact IH.
Qed.

Lemma group_loop_nil : group_loop [] closest = [[]].
Proof. reflexivity. Qed.

Lemma group_loop_scan v0 rest :
  group_loop (v0 :: rest) closest =
  let '(il, ol) := scan closest v0 rest [] [] in ol ++ [il].
Proof.
  unfold group_loop. cbn [length seq fold_left].
  replace (group_step (v0 :: rest) closest ([], []) 0) with
    (@nil Q, @nil (list Q)) by reflexivity.
  now rewrite (fold_group_step rest [] v0).
Qed.

End GroupLoop.

(** ** Running [group_values_nearest] in a store *)

Lemma lookup_middle (s1 : Store) vs s2 : (s1 ++ vs :: s2) !! length s1 = Some vs.
Proof. now apply list_lookup_middle. Qed.

Lemma insert_middle (s1 : Store) vs ws s2 :
  <[length s1 := ws]> (s1 ++ vs :: s2) = s1 ++ ws :: s2.
Proof.
  rewrite insert_app_r_alt by lia.
  now replace (length s1 - length s1)%nat with 0%nat by lia.
Qed.

Lemma group_values_nearest_run s1 vs s2 closest :
  group_values_nearest (length s1) closest (s1 ++ vs :: s2) =
  (Ok (group_loop (sort vs) closest), s1 ++ sort vs :: s2).
Proof.
  unfold group_values_nearest, bind, list_sort, deref, ret.
  rewrite lookup_middle, insert_middle, lookup_middle. reflexivity.
Qed.

(** ** Invariants of the scan *)

Section ScanFacts.

Variable closest : Q.

Lemma scan_near prev v rest il ol :
  near closest (prev, v) = true ->
  scan closest prev (v :: rest) il ol =
  scan closest v rest (appended v (appended prev il)) ol.
Proof. unfold near. cbn. now intros ->. Qed.

Lemma scan_far prev v rest il ol :
  far closest (prev, v) = true ->
  scan closest prev (v :: rest) il ol = scan closest v rest [] (ol ++ [il]).
Proof.
  intros H. assert (N : near closest (prev, v) = false)
    by now rewrite near_far, H.
  unfold near in N. cbn in *. now rewrite N.
Qed.

Lemma near_or_far p : {near closest p = true} + {far closest p = true}.
Proof. rewrite near_far. destruct (far closest p); auto. Qed.

Lemma appended_InA x y il :
  InA Qeq y (appended x il) <-> InA Qeq y il \/ (y == x)%Q.
Proof.
  unfold appended. destruct (py_in x il) eqn:E.
  - apply py_in_InA in E. split; [now left|].
    intros [H|H]; [exact H|]. now rewrite H.
  - rewrite InA_app_iff. split; (intros [H|H]; [now left|right]).
    + now inversion H; subst; [|inversion H1].
    + now constructor.
Qed.

Lemma appended_self x il : py_in x (appended x il) = true.
Proof.
  apply py_in_InA, appended_InA. right. reflexivity.
Qed.

Lemma appended_NoDupA x il : NoDupA Qeq il -> NoDupA Qeq (appended x il).
Proof.
  unfold appended. destruct (py_in x il) eqn:E; [easy|].
  apply py_in_not_InA in E. intros H.
  apply NoDupA_app; [apply Q_Setoid | exact H | repeat constructor; inversion 1 |].
  intros y Hy Hx. inversion Hx as [? ? Hyx|? ? Hn]; subst; [|inversion Hn].
  apply E. now rewrite <- Hyx.
Qed.

(** Every far pair closes one bucket. *)
Lemma scan_length rest : forall prev il ol,
  length (snd (scan closest prev rest il ol)) =
  (length ol + far_pairs closest (prev :: rest))%nat.
Proof.
  induction rest as [|v rest IH]; intros prev il ol.
  - cbn. unfold far_pairs. cbn. lia.
  - unfold far_pairs in *. cbn [adjacent_pairs List.filter].
    destruct (near_or_far (prev, v)) as [N|F].
    + rewrite scan_near, IH by exact N.
      rewrite near_far in N. apply negb_true_iff in N. now rewrite N.
    + rewrite scan_far, IH by exact F. rewrite F, length_app. cbn. lia.
Qed.

(** No bucket holds two equal numbers. *)
Lemma scan_NoDupA rest : forall prev il ol,
  NoDupA Qeq il -> Forall (NoDupA Qeq) ol ->
  NoDupA Qeq (fst (scan closest prev rest il ol)) /\
  Forall (NoDupA Qeq) (snd (scan closest prev rest il ol)).
Proof.
  induction rest as [|v rest IH]; intros prev il ol Hil Hol; [now split|].
  destruct (near_or_far (prev, v)) as [N|F].
  - rewrite scan_near by exact N.
    apply IH; [now do 2 apply appended_NoDupA | exact Hol].
  - rewrite scan_far by exact F.
    apply IH; [constructor|]. apply Forall_app. split; [exact Hol|].
    now constructor.
Qed.

(** The buckets, read in order, are what is left of the sorted values
    after some of them are dropped. *)
Lemma appended_sublist x (flat il pre : list Q) :
  sublist (flat ++ il) (pre ++ [x]) ->
  (py_in x il = false -> sublist (flat ++ il) pre) ->
  sublist (flat ++ appended x il) (pre ++ [x]).
Proof.
  intros H1 H2. unfold appended. destruct (py_in x il) eqn:E; [exact H1|].
  rewrite app_assoc. apply sublist_app; [now apply H2 | reflexivity].
Qed.

Lemma scan_sublist rest : forall pre prev il ol,
  sublist (concat ol ++ il) (pre ++ [prev]) ->
  (py_in prev il = false -> sublist (concat ol ++ il) pre) ->
  let '(il', ol') := scan closest prev rest il ol in
  sublist (concat ol' ++ il') (pre ++ prev :: rest).
Proof.
  induction rest as [|v rest IH]; intros pre prev il ol H1 H2.
  - exact H1.
  - destruct (near_or_far (prev, v)) as [N|F].
    + rewrite scan_near by exact N.
      replace (pre ++ prev :: v :: rest) with ((pre ++ [prev]) ++ v :: rest)
        by now rewrite <- app_assoc.
      apply IH.
      * apply appended_sublist.
        -- apply sublist_inserts_r. now apply appended_sublist.
        -- intros _. now apply appended_sublist.
      * now rewrite appended_self.
    + rewrite scan_far by exact F.
      replace (pre ++ prev :: v :: rest) with ((pre ++ [prev]) ++ v :: rest)
        by now rewrite <- app_assoc.
      apply IH.
      * rewrite concat_app. cbn. rewrite !app_nil_r.
        now apply sublist_inserts_r.
      * intros _. rewrite concat_app. cbn. now rewrite !app_nil_r.
Qed.

(** A number is in a bucket exactly when it is an end of a near pair. *)
Lemma scan_InA x rest : forall prev il ol,
  InA Qeq x (concat (snd (scan closest prev rest il ol)) ++
             fst (scan closest prev rest il ol)) <->
  InA Qeq x (concat ol ++ il) \/ in_near_pair closest x (prev :: rest).
Proof.
  unfold in_near_pair.
  induction rest as [|v rest IH]; intros prev il ol.
  - cbn. rewrite Exists_nil. tauto.
  - cbn [adjacent_pairs]. rewrite Exists_cons.
    destruct (near_or_far (prev, v)) as [N|F].
    + rewrite scan_near by exact N.
      rewrite IH, !InA_app_iff, !appended_InA. cbn [fst snd].
      intuition.
    + rewrite scan_far by exact F.
      rewrite IH, concat_app. cbn [concat]. rewrite !app_nil_r.
      assert (N : near closest (prev, v) = false) by now rewrite near_far, F.
      rewrite N. intuition congruence.
Qed.

End ScanFacts.

(** ** What [group_loop] returns *)

Section GroupFacts.

Variable closest : Q.

Lemma group_loop_length l :
  length (group_loop l closest) = S (far_pairs closest l).
Proof.
  destruct l as [|v0 rest]; [reflexivity|].
  rewrite group_loop_scan.
  pose proof (scan_length closest rest v0 [] []) as H.
  destruct (scan closest v0 rest [] []) as [il ol]. cbn in H.
  rewrite length_app, H. cbn. lia.
Qed.

Lemma group_loop_NoDupA l : Forall (NoDupA Qeq) (group_loop l closest).
Proof.
  destruct l as [|v0 rest]; [repeat constructor|].
  rewrite group_loop_scan.
  destruct (scan_NoDupA closest rest v0 [] []) as [H1 H2];
    [constructor | constructor |].
  destruct (scan closest v0 rest [] []) as [il ol]. cbn in *.
  apply Forall_app. split; [exact H2 | now constructor].
Qed.

Lemma concat_snoc (ol : list (list Q)) il : concat (ol ++ [il]) = concat ol ++ il.
Proof. rewrite concat_app. cbn. now rewrite app_nil_r. Qed.

Lemma group_loop_sublist l : sublist (concat (group_loop l closest)) l.
Proof.
  destruct l as [|v0 rest]; [constructor|].
  rewrite group_loop_scan.
  pose proof (scan_sublist closest rest [] v0 [] []) as H.
  destruct (scan closest v0 rest [] []) as [il ol].
  rewrite concat_snoc. apply H; intros; apply sublist_nil_l.
Qed.

Lemma group_loop_InA x l :
  InA Qeq x (concat (group_loop l closest)) <-> in_near_pair closest x l.
Proof.
  destruct l as [|v0 rest].
  - cbn. unfold in_near_pair. cbn. rewrite Exists_nil. split; [inversion 1|easy].
  - rewrite group_loop_scan.
    pose proof (scan_InA closest x rest v0 [] []) as H.
    destruct (scan closest v0 rest [] []) as [il ol].
    rewrite concat_snoc. cbn [fst snd] in H. rewrite H. cbn.
    split; [intros [C|C]; [inversion C | exact C] | now right].
Qed.

(** A larger threshold leaves fewer far pairs. *)
Lemma far_mono t1 t2 p : (t1 <= t2)%Q -> far t2 p = true -> far t1 p = true.
Proof.
  unfold far. intros Ht H. apply Qle_bool_iff in H. apply Qle_bool_iff.
  now apply Qle_trans with t2.
Qed.

Lemma filter_far_mono t1 t2 (ps : list (Q * Q)) :
  (t1 <= t2)%Q ->
  (length (List.filter (far t2) ps) <= length (List.filter (far t1) ps))%nat.
Proof.
  intros Ht. induction ps as [|p ps IH]; cbn; [lia|].
  destruct (far t2 p) eqn:E.
  - rewrite (far_mono t1 t2 p Ht E). cbn. lia.
  - destruct (far t1 p); cbn; lia.
Qed.

(** With a threshold that is not positive, every pair is far. *)
Lemma far_nonpos p : (closest <= 0)%Q -> far closest p = true.
Proof.
  intros H. apply Qle_bool_iff.
  apply Qle_trans with 0%Q; [exact H | apply Qabs_nonneg].
Qed.

Lemma adjacent_pairs_length l : length (adjacent_pairs l) = (length l - 1)%nat.
Proof.
  induction l as [|a [|b t] IH]; [reflexivity | reflexivity |].
  cbn [adjacent_pairs length] in *. lia.
Qed.

End GroupFacts.

(** ** The local-maxima search: enough fuel, positions in range *)

Section PeakFacts.

Variable x : list Q.
Variable i_max : nat.

Lemma plateau_end_ge xi fuel : forall i_ahead,
  (i_ahead <= plateau_end x xi i_max fuel i_ahead)%nat.
Proof.
  induction fuel as [|fuel IH]; intros i_ahead; cbn [plateau_end]; [lia|].
  destruct (_ && _); [|lia]. specialize (IH (S i_ahead)). lia.
Qed.

Lemma plateau_end_le xi fuel : forall i_ahead,
  (i_ahead <= i_max)%nat ->
  (plateau_end x xi i_max fuel i_ahead <= i_max)%nat.
Proof.
  induction fuel as [|fuel IH]; intros i_ahead H; cbn [plateau_end]; [lia|].
  destruct (i_ahead <? i_max)%nat eqn:E; cbn [andb]; [|lia].
  destruct (Qeq_bool _ _); [|lia].
  apply IH. apply Nat.ltb_lt in E. lia.
Qed.

(** The inner loop has left by the time its fuel is spent. *)
Lemma plateau_end_fuel xi fuel : forall i_ahead,
  (i_max - i_ahead <= fuel)%nat ->
  plateau_end x xi i_max fuel i_ahead =
  plateau_end x xi i_max (i_max - i_ahead) i_ahead.
Proof.
  induction fuel as [|fuel IH]; intros i_ahead H.
  - now replace (i_max - i_ahead)%nat with 0%nat by lia.
  - cbn [plateau_end]. destruct (i_ahead <? i_max)%nat eqn:E; cbn [andb].
    + apply Nat.ltb_lt in E.
      replace (i_max - i_ahead)%nat with (S (i_max - S i_ahead)) by lia.
      cbn [plateau_end]. apply Nat.ltb_lt in E. rewrite E. cbn [andb].
      destruct (Qeq_bool _ _); [|reflexivity].
      apply IH. apply Nat.ltb_lt in E. lia.
    + destruct (i_max - i_ahead)%nat; cbn [plateau_end]; [reflexivity|].
      now rewrite E.
Qed.

(** So has the outer loop: more fuel changes nothing. *)
Lemma local_maxima_loop_fuel fuel : forall fuel' i midpoints,
  (i_max - i <= fuel)%nat -> (i_max - i <= fuel')%nat ->
  local_maxima_loop x i_max fuel i midpoints =
  local_maxima_loop x i_max fuel' i midpoints.
Proof.
  induction fuel as [|fuel IH]; intros fuel' i midpoints H H'.
  - destruct fuel' as [|fuel']; cbn [local_maxima_loop]; [reflexivity|].
    assert (E : (i <? i_max)%nat = false) by (apply Nat.ltb_ge; lia).
    now rewrite E.
  - cbn [local_maxima_loop]. destruct (i <? i_max)%nat eqn:E.
    + apply Nat.ltb_lt in E. destruct fuel' as [|fuel']; [lia|].
      cbn [local_maxima_loop]. apply Nat.ltb_lt in E. rewrite E.
      apply Nat.ltb_lt in E.
      pose proof (plateau_end_ge (nth i x 0%Q) (i_max - (i + 1)) (i + 1)).
      destruct (Qltb (nth (i - 1) x 0%Q) (nth i x 0%Q)).
      * destruct (Qltb _ (nth i x 0%Q)); apply IH; lia.
      * apply IH; lia.
    + destruct fuel' as [|fuel']; cbn [local_maxima_loop];
        [reflexivity | now rewrite E].
Qed.

Lemma midpoint_between i j :
  (i <= j)%nat -> (i <= (i + j) / 2 <= j)%nat.
Proof.
  intros H. split.
  - apply Nat.div_le_lower_bound; lia.
  - apply Nat.Div0.div_le_upper_bound; lia.
Qed.

(** Every reported position is strictly inside the array. *)
Lemma local_maxima_loop_range fuel : forall i midpoints,
  (1 <= i)%nat ->
  Forall (fun p => (0 < p < i_max)%nat) midpoints ->
  Forall (fun p => (0 < p < i_max)%nat)
    (local_maxima_loop x i_max fuel i midpoints).
Proof.
  induction fuel as [|fuel IH]; intros i midpoints Hi Hm;
    cbn [local_maxima_loop]; [exact Hm|].
  destruct (i <? i_max)%nat eqn:E; [|exact Hm].
  apply Nat.ltb_lt in E.
  pose proof (plateau_end_ge (nth i x 0%Q) (i_max - (i + 1)) (i + 1)) as Hge.
  pose proof (plateau_end_le (nth i x 0%Q) (i_max - (i + 1)) (i + 1)) as Hle.
  destruct (Qltb (nth (i - 1) x 0%Q) (nth i x 0%Q)); [|apply IH; [lia|exact Hm]].
  destruct (Qltb _ (nth i x 0%Q)); [|apply IH; [lia|exact Hm]].
  apply IH; [lia|]. apply Forall_app. split; [exact Hm|].
  constructor; [|constructor].
  set (j := plateau_end _ _ _ _ _) in *.
  pose proof (midpoint_between i (j - 1)). lia.
Qed.

End PeakFacts.

Lemma _local_maxima_1d_fuel x fuel :
  (length x <= fuel)%nat ->
  local_maxima_loop x (length x - 1) fuel 1 [] = _local_maxima_1d x.
Proof.
  intros H. unfold _local_maxima_1d. apply local_maxima_loop_fuel; lia.
Qed.

Lemma _local_maxima_1d_range x :
  Forall (fun p => (0 < p < length x - 1)%nat) (_local_maxima_1d x).
Proof.
  unfold _local_maxima_1d. apply local_maxima_loop_range; [lia | constructor].
Qed.

Lemma find_peaks_range x h :
  Forall (fun p => (0 < p < length x - 1)%nat) (find_peaks x h).
Proof.
  unfold find_peaks.
  pose proof (_local_maxima_1d_range x) as H.
  induction H as [|p l Hp Hl IH]; cbn; [constructor|].
  destruct (Qle_bool _ _); [now constructor | exact IH].
Qed.

Lemma find_peaks_short x h : (length x <= 2)%nat -> find_peaks x h = [].
Proof.
  intros H. pose proof (find_peaks_range x h) as R.
  destruct (find_peaks x h) as [|p l]; [reflexivity|].
  inversion R; subst. lia.
Qed.

(** [min] of a sequence with an element returns. *)
Lemma py_min_cons d rest : exists m, py_min (d :: rest) = Ok m.
Proof. eexists. reflexivity. Qed.

(** ** What [_peaks_detection] and the aggregator return *)

Lemma directed_nonempty values direction :
  values <> [] -> directed values direction <> [].
Proof.
  unfold directed. destruct (String.eqb _ _); [|easy].
  destruct values; [easy | discriminate].
Qed.

Lemma directed_length values direction :
  length (directed values direction) = length values.
Proof.
  unfold directed. destruct (String.eqb _ _); [apply length_map | easy].
Qed.

Lemma py_min_directed values direction :
  values <> [] ->
  py_min (directed values direction) = Ok (height_of values direction).
Proof.
  intros H. apply (directed_nonempty values direction) in H.
  unfold height_of. now destruct (directed values direction).
Qed.

Lemma _peaks_detection_empty rounded direction :
  _peaks_detection [] rounded direction = Raise ValueError.
Proof.
  unfold _peaks_detection. now destruct (String.eqb _ _).
Qed.

Lemma _peaks_detection_indices values rounded direction :
  values <> [] -> truthy rounded = false ->
  _peaks_detection values rounded direction =
  Ok (PeakIndices (peak_positions values direction)).
Proof.
  intros Hv Hr. unfold _peaks_detection. fold (directed values direction).
  rewrite (py_min_directed _ _ Hv). cbn [obind].
  destruct rounded as [n|]; [|reflexivity]. now rewrite Hr.
Qed.

Lemma _peaks_detection_values values n direction :
  values <> [] -> n <> 0%Z ->
  _peaks_detection values (Some n) direction =
  Ok (PeakValues (map (fun val => Qabs (py_round
                         (nth val (directed values direction) 0%Q) n))
                    (peak_positions values direction))).
Proof.
  intros Hv Hn. unfold _peaks_detection. fold (directed values direction).
  rewrite (py_min_directed _ _ Hv). cbn [obind truthy].
  apply Z.eqb_neq in Hn. now rewrite Hn.
Qed.

Lemma peak_positions_range values direction :
  Forall (fun p => (0 < p < length values - 1)%nat)
    (peak_positions values direction).
Proof.
  unfold peak_positions. rewrite <- (directed_length values direction).
  apply find_peaks_range.
Qed.

Lemma peak_positions_short values direction :
  (length values <= 2)%nat -> peak_positions values direction = [].
Proof.
  intros H. apply find_peaks_short. now rewrite directed_length.
Qed.

(** The loop of the aggregator never calls [mean] on an empty bucket. *)
Lemma levels_loop_run T peaks_grouped : forall result,
  levels_loop T peaks_grouped result =
  Ok (result ++
      map (fun val => convert T (average val))
        (List.filter confirmed peaks_grouped)).
Proof.
  induction peaks_grouped as [|val rest IH]; intros result; cbn [levels_loop].
  - cbn. now rewrite app_nil_r.
  - destruct val as [|a val]; [now rewrite IH|].
    cbn [List.filter]. unfold confirmed at 1. rewrite Nat.ltb_antisym.
    destruct (3 <=? length (a :: val))%nat; cbn [negb].
    + cbn [mean obind]. rewrite IH. cbn [map]. now rewrite <- app_assoc.
    + now rewrite IH.
Qed.

Lemma _get_support_resistances_run T values direction closest (s : Store) :
  values <> [] ->
  _get_support_resistances T values direction closest s =
  (Ok (map (fun val => convert T (average val))
         (List.filter confirmed
            (group_loop (sort (rounded_peaks values direction)) closest))),
   s ++ [sort (rounded_peaks values direction)]).
Proof.
  intros Hv. unfold _get_support_resistances, bind, lift, alloc.
  rewrite (_peaks_detection_values values 3 direction Hv) by lia.
  cbn [peak_items]. fold (rounded_peaks values direction).
  rewrite (group_values_nearest_run s _ [] closest).
  now rewrite levels_loop_run.
Qed.

Lemma _get_support_resistances_empty T direction closest (s : Store) :
  _get_support_resistances T [] direction closest s = (Raise ValueError, s).
Proof.
  unfold _get_support_resistances, bind, lift.
  now rewrite _peaks_detection_empty.
Qed.

(** ** The worked scenarios *)

(** With threshold 2 the sorted peaks [3,3,4,4,5,5] make the one bucket
    [3,4,5], and its mean is the one level. *)
Example series_threshold_2 (T : dtype) :
  _get_support_resistances T series "up" 2 [] =
  (Ok [4%Q], [[3; 3; 4; 4; 5; 5]%Q]).
Proof. destruct T; vm_compute; reflexivity. Qed.

(** C1, as the spec words it, does not hold: on the series
    [1,3,1,4,1,5,1,4,1,5,1,3,1] with direction up and threshold 1 the
    peaks are not grouped into the one bucket [3,3,4,4,5,5], and the
    level 4 is not returned, be the series of integers or of floats. *)
Lemma C1_scenario_counterexample :
  fst (group_values_nearest 0 1 [[3; 4; 5; 4; 5; 3]%Q])
    <> Ok [[3; 3; 4; 4; 5; 5]%Q] /\
  fst (_get_support_resistances Int64 series "up" 1 []) <> Ok [4%Q] /\
  fst (_get_support_resistances Float64 series "up" 1 []) <> Ok [4%Q].
Proof. repeat split; vm_compute; discriminate. Qed.

(** C1 (amended): on the series [1,3,1,4,1,5,1,4,1,5,1,3,1] with
    direction up and threshold 1, the peak values are [3,4,5,4,5,3]; the
    grouper sorts them to [3,3,4,4,5,5] and returns the three buckets
    [3], [4], [5] (a difference of 1 is not below the threshold 1, and a
    bucket holds equal values once); no bucket has 3 members, so no
    level is returned, be the series of integers or of floats. *)
Theorem C1_scenario :
  _peaks_detection series (Some 3%Z) "up" =
    Ok (PeakValues [3; 4; 5; 4; 5; 3]%Q) /\
  group_values_nearest 0 1 [[3; 4; 5; 4; 5; 3]%Q] =
    (Ok [[3%Q]; [4%Q]; [5%Q]], [[3; 3; 4; 4; 5; 5]%Q]) /\
  _get_support_resistances Int64 series "up" 1 [] =
    (Ok [], [[3; 3; 4; 4; 5; 5]%Q]) /\
  _get_support_resistances Float64 series "up" 1 [] =
    (Ok [], [[3; 3; 4; 4; 5; 5]%Q]).
Proof. repeat split; vm_compute; reflexivity. Qed.

(** ** The grouper *)

(** C2, as the spec words it, does not hold: for [1,2,10,11,20] and
    threshold 2 the value 20 is in no bucket, so the buckets do not
    cover the input. *)
Lemma C2_cover_counterexample :
  exists buckets s',
    group_values_nearest 0 2 [[1; 2; 10; 11; 20]%Q] = (Ok buckets, s') /\
    ~ In 20%Q (concat buckets) /\
    ~ Permutation (concat buckets) [1; 2; 10; 11; 20]%Q.
Proof.
  eexists. eexists. split; [vm_compute; reflexivity|]. split.
  - cbn. intros H. repeat (destruct H as [H|H]; [discriminate H|]). exact H.
  - intros H. apply Permutation_length in H. discriminate H.
Qed.

(** C2 (amended): for every input list and every threshold, each
    occurrence of an input value is in at most one bucket: the buckets,
    read in order, are a sub-sequence of the sorted input, hence a
    sub-multiset of the input; and a number is in some bucket exactly
    when it equals an end of a pair of sorted neighbours whose
    difference is below the threshold. *)
Theorem C2_cover (s1 : Store) (vs : list Q) (s2 : Store) (closest : Q) :
  exists buckets,
    group_values_nearest (length s1) closest (s1 ++ vs :: s2) =
      (Ok buckets, s1 ++ sort vs :: s2) /\
    sublist (concat buckets) (sort vs) /\
    concat buckets ⊆+ vs /\
    forall x, InA Qeq x (concat buckets) <-> in_near_pair closest x (sort vs).
Proof.
  exists (group_loop (sort vs) closest).
  split; [apply group_values_nearest_run|].
  pose proof (group_loop_sublist closest (sort vs)) as S.
  split; [exact S|]. split.
  - rewrite <- (sort_perm vs) at 2. now apply sublist_submseteq.
  - intros x. apply group_loop_InA.
Qed.

(** C3, as the spec words it, does not hold: after the call the
    caller's list [3,1,2] reads [1,2,3]. *)
Lemma C3_caller_list_counterexample :
  snd (group_values_nearest 0 2 [[3; 1; 2]%Q]) !! 0%nat <> Some [3; 1; 2]%Q.
Proof. vm_compute. discriminate. Qed.

(** C3 (amended): [group_values_nearest] sorts the caller's list in
    place: after the call that list holds its values in ascending
    order, a permutation of what it held, and every other list of the
    store is as it was.  Inside [_get_support_resistances] the list
    that is sorted is the peak list the function built itself: the
    lists that existed before the call are as they were. *)
Theorem C3_caller_list (s1 : Store) (vs : list Q) (s2 : Store) (closest : Q) :
  (snd (group_values_nearest (length s1) closest (s1 ++ vs :: s2)) =
     s1 ++ sort vs :: s2 /\
   Sorted Qle (sort vs) /\
   Permutation (sort vs) vs) /\
  forall T values direction,
    exists made,
      snd (_get_support_resistances T values direction closest s1) =
        s1 ++ made.
Proof.
  split.
  - rewrite group_values_nearest_run.
    split; [reflexivity|]. split; [apply sort_sorted | apply sort_perm].
  - intros T values direction. destruct values as [|v values].
    + exists []. rewrite _get_support_resistances_empty. cbn.
      now rewrite app_nil_r.
    + eexists. now rewrite _get_support_resistances_run.
Qed.

(** C6: the grouper returns one bucket more than there are pairs of
    sorted neighbours whose difference is at least the threshold, empty
    buckets included; no value or one value gives the one empty bucket;
    and [1,2,10,11,20] with threshold 2 gives [[1,2],[10,11],[]]. *)
Theorem C6_bucket_count :
  (forall (s1 : Store) vs s2 closest,
     exists buckets,
       group_values_nearest (length s1) closest (s1 ++ vs :: s2) =
         (Ok buckets, s1 ++ sort vs :: s2) /\
       length buckets = S (far_pairs closest (sort vs))) /\
  (forall (s1 : Store) s2 closest,
     fst (group_values_nearest (length s1) closest (s1 ++ [] :: s2)) =
       Ok [[]]) /\
  (forall (s1 : Store) v s2 closest,
     fst (group_values_nearest (length s1) closest (s1 ++ [v] :: s2)) =
       Ok [[]]) /\
  fst (group_values_nearest 0 2 [[1; 2; 10; 11; 20]%Q]) =
    Ok [[1; 2]%Q; [10; 11]%Q; []].
Proof.
  split; [|split; [|split]].
  - intros s1 vs s2 closest. eexists.
    split; [apply group_values_nearest_run | apply group_loop_length].
  - intros. now rewrite group_values_nearest_run.
  - intros. now rewrite group_values_nearest_run.
  - vm_compute. reflexivity.
Qed.

(** C7: a larger threshold never gives more buckets. *)
Theorem C7_threshold_monotone (s1 : Store) (vs : list Q) (s2 : Store)
    (t1 t2 : Q) :
  (t1 <= t2)%Q ->
  exists b1 b2,
    fst (group_values_nearest (length s1) t1 (s1 ++ vs :: s2)) = Ok b1 /\
    fst (group_values_nearest (length s1) t2 (s1 ++ vs :: s2)) = Ok b2 /\
    (length b2 <= length b1)%nat.
Proof.
  intros Ht. do 2 eexists. rewrite !group_values_nearest_run.
  split; [reflexivity|]. split; [reflexivity|].
  rewrite !group_loop_length. unfold far_pairs.
  apply le_n_S. now apply filter_far_mono.
Qed.

Lemma C7_threshold_monotone_witness :
  (2 <= 9)%Q /\
  exists b1 b2,
    fst (group_values_nearest 0 2 ([] ++ [1; 2; 10; 11; 20]%Q :: [])) = Ok b1 /\
    fst (group_values_nearest 0 9 ([] ++ [1; 2; 10; 11; 20]%Q :: [])) = Ok b2 /\
    (length b2 <= length b1)%nat.
Proof.
  split; [discriminate|].
  apply (C7_threshold_monotone [] [1; 2; 10; 11; 20]%Q [] 2 9). discriminate.
Defined.

(** C10: no bucket holds two equal numbers, so equal values count once
    toward the size of a bucket; three peaks at 3 make a bucket of one. *)
Theorem C10_bucket_distinct :
  (forall (s1 : Store) vs s2 closest,
     exists buckets,
       group_values_nearest (length s1) closest (s1 ++ vs :: s2) =
         (Ok buckets, s1 ++ sort vs :: s2) /\
       Forall (NoDupA Qeq) buckets) /\
  fst (group_values_nearest 0 1 [[3; 3; 3]%Q]) = Ok [[3%Q]].
Proof.
  split.
  - intros s1 vs s2 closest. eexists.
    split; [apply group_values_nearest_run | apply group_loop_NoDupA].
  - vm_compute. reflexivity.
Qed.

(** ** Thresholds that are not positive *)

Lemma filter_all {A} (f : A -> bool) (l : list A) :
  (forall a, f a = true) -> List.filter f l = l.
Proof.
  intros H. induction l as [|a l IH]; cbn; [reflexivity|].
  now rewrite H, IH.
Qed.

Lemma group_loop_nonpos closest l :
  (closest <= 0)%Q ->
  Forall (eq []) (group_loop l closest) /\
  length (group_loop l closest) = Nat.max 1 (length l).
Proof.
  intros Hc. split.
  - apply List.Forall_forall. intros b Hb.
    destruct b as [|x b]; [reflexivity | exfalso].
    assert (I : InA Qeq x (concat (group_loop l closest))).
    { apply In_InA; [apply Q_Setoid|]. apply in_concat.
      exists (x :: b). split; [exact Hb | now left]. }
    apply group_loop_InA, Exists_exists in I.
    destruct I as (p & _ & N & _).
    rewrite near_far, (far_nonpos closest p Hc) in N. discriminate N.
  - rewrite group_loop_length. unfold far_pairs.
    rewrite filter_all by (intros p; now apply far_nonpos).
    rewrite adjacent_pairs_length. lia.
Qed.

(** ** The peak detector *)

(** C4, as the spec words it, does not hold: on the empty series
    [min(data)] raises. *)
Lemma C4_short_input_counterexample :
  _peaks_detection [] (Some 3%Z) "up" = Raise ValueError.
Proof. reflexivity. Qed.

(** C4 (amended): for every series of length 1 or 2, every direction
    and every [rounded], [_peaks_detection] raises nothing and returns
    an empty sequence of peaks; for the empty series it raises
    [ValueError] ([min] of an empty sequence). *)
Theorem C4_short_input (values : list Q) (rounded : option Z)
    (direction : string) :
  (1 <= length values <= 2)%nat ->
  _peaks_detection values rounded direction =
    Ok (if truthy rounded then PeakValues [] else PeakIndices []) /\
  _peaks_detection [] rounded direction = Raise ValueError.
Proof.
  intros [H1 H2]. split; [|apply _peaks_detection_empty].
  assert (Hv : values <> []) by (destruct values; [cbn in H1; lia | easy]).
  destruct (truthy rounded) eqn:E.
  - destruct rounded as [n|]; [|discriminate E].
    cbn in E. apply negb_true_iff, Z.eqb_neq in E.
    rewrite (_peaks_detection_values values n direction Hv E).
    now rewrite peak_positions_short.
  - rewrite (_peaks_detection_indices values rounded direction Hv E).
    now rewrite peak_positions_short.
Qed.

Lemma C4_short_input_witness :
  (1 <= length [1; 2]%Q <= 2)%nat /\
  _peaks_detection [1; 2]%Q (Some 3%Z) "down" =
    Ok (if truthy (Some 3%Z) then PeakValues [] else PeakIndices []) /\
  _peaks_detection [] (Some 3%Z) "down" = Raise ValueError.
Proof.
  split; [cbn; lia|].
  apply (C4_short_input [1; 2]%Q (Some 3%Z) "down"). cbn. lia.
Defined.

(** C5, as the spec words it, does not hold: with threshold 0 the
    grouper returns two empty buckets for [1,2], and with [rounded] -1
    the detector returns the peak 3 of [1,3,1] rounded to tens; neither
    raises. *)
Lemma C5_bad_parameters_counterexample :
  fst (group_values_nearest 0 0 [[1; 2]%Q]) = Ok [[]; []] /\
  _peaks_detection [1; 3; 1]%Q (Some (-1)%Z) "up" = Ok (PeakValues [0%Q]).
Proof. split; vm_compute; reflexivity. Qed.

(** C5 (amended): neither operation checks its parameters.  With a
    threshold that is not positive the grouper raises nothing and
    returns only empty buckets, one for an empty input and one per value
    otherwise; with a negative [rounded] the detector, on a series that
    is not empty, raises nothing and returns the peak values rounded to
    that power of ten. *)
Theorem C5_bad_parameters (closest : Q) (n : Z) (s1 : Store) (vs : list Q)
    (s2 : Store) (values : list Q) (direction : string) :
  (closest <= 0)%Q -> (n < 0)%Z -> values <> [] ->
  (exists buckets,
     group_values_nearest (length s1) closest (s1 ++ vs :: s2) =
       (Ok buckets, s1 ++ sort vs :: s2) /\
     Forall (eq []) buckets /\
     length buckets = Nat.max 1 (length vs)) /\
  _peaks_detection values (Some n) direction =
    Ok (PeakValues
          (map (fun val => Qabs (py_round
                  (nth val (directed values direction) 0%Q) n))
             (peak_positions values direction))).
Proof.
  intros Hc Hn Hv. split.
  - eexists. split; [apply group_values_nearest_run|].
    rewrite <- (sort_length vs). now apply group_loop_nonpos.
  - apply _peaks_detection_values; [exact Hv | lia].
Qed.

Lemma C5_bad_parameters_witness :
  (0 <= 0)%Q /\ (-1 < 0)%Z /\ [1; 3; 1]%Q <> [] /\
  (exists buckets,
     group_values_nearest (length (@nil (list Q))) 0
       ([] ++ [1; 2]%Q :: []) = (Ok buckets, [] ++ sort [1; 2]%Q :: []) /\
     Forall (eq []) buckets /\
     length buckets = Nat.max 1 (length [1; 2]%Q)) /\
  _peaks_detection [1; 3; 1]%Q (Some (-1)%Z) "up" =
    Ok (PeakValues
          (map (fun val => Qabs (py_round
                  (nth val (directed [1; 3; 1]%Q "up") 0%Q) (-1)))
             (peak_positions [1; 3; 1]%Q "up"))).
Proof.
  split; [discriminate|]. split; [lia|]. split; [discriminate|].
  apply (C5_bad_parameters 0 (-1) [] [1; 2]%Q [] [1; 3; 1]%Q "up");
    [discriminate | lia | discriminate].
Defined.



(** ** The aggregator *)

(** C8 does not hold of the code on a series of integers.  The peaks
    of the [np.int64] series [0,1,0,2,0,4,0] are [1,2,4]; with threshold
    3 they make one bucket, whose arithmetic mean is 7/3.
    [statistics.mean] converts the mean back to [np.int64], and the
    level returned is 2; the same samples as floats give 7/3. *)
Theorem C8_int_series_truncated :
  _get_support_resistances Int64 [0; 1; 0; 2; 0; 4; 0]%Q "up" 3 [] =
    (Ok [2%Q], [[1; 2; 4]%Q]) /\
  _get_support_resistances Float64 [0; 1; 0; 2; 0; 4; 0]%Q "up" 3 [] =
    (Ok [7 # 3], [[1; 2; 4]%Q]) /\
  ~ (2 * 3 == 1 + 2 + 4)%Q /\
  ((7 # 3) * 3 == 1 + 2 + 4)%Q.
Proof.
  split; [vm_compute; reflexivity|]. split; [vm_compute; reflexivity|].
  split; [discriminate | reflexivity].
Qed.

(** * Further properties *)

(** ** The grouper on its sorted values *)

Section ScanSorted.

Variable closest : Q.

Lemma adjacent_pairs_snoc l e v :
  adjacent_pairs (l ++ [e; v]) = adjacent_pairs (l ++ [e]) ++ [(e, v)].
Proof.
  induction l as [|a l IH]; [reflexivity|].
  destruct l as [|b l]; [reflexivity|].
  change ((a :: b :: l) ++ [e; v]) with (a :: (b :: l) ++ [e; v]).
  change ((a :: b :: l) ++ [e]) with (a :: (b :: l) ++ [e]).
  cbn [adjacent_pairs app] in *. now rewrite IH.
Qed.

Lemma chain_snoc l e v :
  chain closest (l ++ [e]) -> (e < v)%Q -> (v - e < closest)%Q ->
  chain closest ((l ++ [e]) ++ [v]).
Proof.
  unfold chain. intros H1 H2 H3. rewrite <- app_assoc. cbn [app].
  rewrite adjacent_pairs_snoc. apply Forall_app. split; [exact H1|].
  now repeat constructor.
Qed.

Lemma StronglySorted_snoc (l : list Q) v :
  StronglySorted Qlt l -> Forall (fun y => (y < v)%Q) l ->
  StronglySorted Qlt (l ++ [v]).
Proof.
  induction 1 as [|a l Hs IH Ha]; intros Hv; cbn.
  - repeat constructor.
  - inversion Hv; subst. constructor; [now apply IH|].
    apply Forall_app. split; [exact Ha | now repeat constructor].
Qed.

Lemma near_gap prev v :
  (prev <= v)%Q -> near closest (prev, v) = true ->
  (v - prev < closest)%Q /\ (0 < closest)%Q.
Proof.
  unfold near. cbn [fst snd]. intros Hle H. apply Qltb_lt in H.
  assert (E : (Qabs (v - prev) == v - prev)%Q) by (apply Qabs_pos; lra).
  rewrite E in H. split; lra.
Qed.

Lemma far_gap prev v :
  (prev <= v)%Q -> far closest (prev, v) = true -> (prev + closest <= v)%Q.
Proof.
  unfold far. cbn [fst snd]. intros Hle H. apply Qle_bool_iff in H.
  assert (E : (Qabs (v - prev) == v - prev)%Q) by (apply Qabs_pos; lra).
  rewrite E in H. lra.
Qed.

Lemma not_py_in_lt v (l : list Q) :
  py_in v l = false -> Forall (fun y => (y <= v)%Q) l ->
  Forall (fun y => (y < v)%Q) l.
Proof.
  intros Hn Hl. apply py_in_not_InA in Hn.
  induction Hl as [|y l Hy Hl IH]; constructor.
  - destruct (Qlt_le_dec y v) as [L|G]; [exact L|].
    exfalso. apply Hn. left. lra.
  - apply IH. intros C. apply Hn. now right.
Qed.

(** The first append of a near turn. *)
Lemma scan_inv_appended_prev prev il ol :
  (0 < closest)%Q -> scan_inv closest prev il ol ->
  scan_inv closest prev (appended prev il) ol /\
  exists il0 e, appended prev il = il0 ++ [e] /\ (e == prev)%Q.
Proof.
  intros Hc (H1 & H2 & H3 & H4 & H5 & H6). unfold appended.
  destruct (py_in prev il) eqn:E.
  - destruct H4 as [->|H4]; [discriminate E|].
    split; [|exact H4]. repeat split; auto.
  - destruct H4 as [->|(il0 & e & -> & He)].
    + split; [|exists [], prev; split; [reflexivity | lra]].
      cbn [app]. repeat split.
      * constructor; [lra | constructor].
      * exact H2.
      * apply StronglySorted_snoc; [now rewrite app_nil_r in H3|].
        eapply List.Forall_impl; [|exact H2]. cbn. intros y Hy. lra.
      * right. exists [], prev. split; [reflexivity | lra].
      * constructor.
      * exact H6.
    + exfalso. apply py_in_not_InA in E. apply E.
      apply InA_app_iff. right. left. lra.
Qed.

(** The second append of a near turn. *)
Lemma scan_inv_appended_v prev v il ol :
  (prev <= v)%Q -> (v - prev < closest)%Q -> (0 < closest)%Q ->
  scan_inv closest prev il ol ->
  (exists il0 e, il = il0 ++ [e] /\ (e == prev)%Q) ->
  scan_inv closest v (appended v il) ol.
Proof.
  intros Hle Hgap Hc (H1 & H2 & H3 & _ & H5 & H6) (il0 & e & Hil & He).
  assert (L1 : Forall (fun y => (y <= v)%Q) il).
  { eapply List.Forall_impl; [|exact H1]. cbn. intros y Hy. lra. }
  assert (L2 : Forall (fun y => (y + closest <= v)%Q) (concat ol)).
  { eapply List.Forall_impl; [|exact H2]. cbn. intros y Hy. lra. }
  unfold appended. destruct (py_in v il) eqn:E.
  - repeat split; auto. right. exists il0, e. split; [exact Hil|].
    apply py_in_InA, InA_alt in E. destruct E as (y & Hy & Hin).
    rewrite List.Forall_forall in H1. specialize (H1 y Hin). lra.
  - pose proof (not_py_in_lt v il E L1) as L3.
    repeat split.
    + apply Forall_app. split; [exact L1|]. constructor; [lra|constructor].
    + exact L2.
    + rewrite app_assoc. apply StronglySorted_snoc; [exact H3|].
      apply Forall_app. split; [|exact L3].
      eapply List.Forall_impl; [|exact L2]. cbn. intros y Hy. lra.
    + right. exists il, v. split; [reflexivity | lra].
    + subst il. apply chain_snoc; [exact H5| |lra].
      rewrite List.Forall_forall in L3. apply (L3 e).
      apply in_or_app. right. now left.
    + exact H6.
Qed.

Lemma scan_inv_far prev v il ol :
  (prev + closest <= v)%Q -> (prev <= v)%Q ->
  scan_inv closest prev il ol -> scan_inv closest v [] (ol ++ [il]).
Proof.
  intros Hgap Hle (H1 & H2 & H3 & _ & H5 & H6).
  unfold scan_inv. rewrite concat_snoc, app_nil_r. repeat split.
  - constructor.
  - apply Forall_app. split; (eapply List.Forall_impl; [|eassumption]);
      cbn; intros y Hy; lra.
  - exact H3.
  - now left.
  - constructor.
  - apply Forall_app. split; [exact H6 | now constructor].
Qed.

Lemma scan_inv_run rest : forall prev il ol,
  StronglySorted Qle (prev :: rest) ->
  scan_inv closest prev il ol ->
  exists last,
    scan_inv closest last (fst (scan closest prev rest il ol))
      (snd (scan closest prev rest il ol)).
Proof.
  induction rest as [|v rest IH]; intros prev il ol Hs Hinv.
  - now exists prev.
  - inversion Hs as [|? ? Hs' Hall]; subst.
    inversion Hall as [|? ? Hle _]; subst.
    destruct (near_or_far closest (prev, v)) as [N|F].
    + rewrite scan_near by exact N.
      destruct (near_gap prev v Hle N) as [Hgap Hc].
      destruct (scan_inv_appended_prev prev il ol Hc Hinv) as [I1 Hlast].
      apply IH; [exact Hs'|].
      now apply (scan_inv_appended_v prev).
    + rewrite scan_far by exact F.
      apply IH; [exact Hs'|].
      apply (scan_inv_far prev); [now apply far_gap | exact Hle | exact Hinv].
Qed.

End ScanSorted.

Lemma sort_strongly_sorted l : StronglySorted Qle (sort l).
Proof.
  apply Sorted_StronglySorted; [exact Qle_trans | apply sort_sorted].
Qed.

Lemma group_loop_sorted closest l :
  StronglySorted Qle l ->
  Forall (chain closest) (group_loop l closest) /\
  StronglySorted Qlt (concat (group_loop l closest)).
Proof.
  intros Hs. destruct l as [|v0 rest].
  - split; repeat constructor.
  - rewrite group_loop_scan.
    destruct (scan_inv_run closest rest v0 [] [] Hs) as (last & I).
    { unfold scan_inv, chain. cbn.
      split; [constructor|]. split; [constructor|]. split; [constructor|].
      split; [now left|]. split; constructor. }
    destruct (scan closest v0 rest [] []) as [il ol]. cbn [fst snd] in I.
    destruct I as (_ & _ & H3 & _ & H5 & H6).
    rewrite concat_snoc. split; [|exact H3].
    apply Forall_app. split; [exact H6 | now constructor].
Qed.

(** A sorted list is left as it is by the sort. *)
Lemma sort_sorted_id l : Sorted Qle l -> sort l = l.
Proof.
  induction 1 as [|x l Hs IH Hhd]; [reflexivity|].
  cbn [sort foldr]. fold (sort l). rewrite IH.
  destruct Hhd as [|y l Hxy]; [reflexivity|].
  cbn [insert]. apply Qltb_ge in Hxy. now rewrite Hxy.
Qed.

(** X1: every bucket the grouper returns ascends strictly, and two
    neighbours in a bucket are less than the threshold apart. *)
Theorem group_bucket_chain (s1 : Store) (vs : list Q) (s2 : Store)
    (closest : Q) :
  exists buckets,
    group_values_nearest (length s1) closest (s1 ++ vs :: s2) =
      (Ok buckets, s1 ++ sort vs :: s2) /\
    Forall (chain closest) buckets.
Proof.
  eexists. split; [apply group_values_nearest_run|].
  apply group_loop_sorted, sort_strongly_sorted.
Qed.

(** X2: read one after another, the buckets ascend strictly: a number
    of one bucket is below every number of a later bucket, and no number
    is in two buckets. *)
Theorem group_buckets_ascending (s1 : Store) (vs : list Q) (s2 : Store)
    (closest : Q) :
  exists buckets,
    group_values_nearest (length s1) closest (s1 ++ vs :: s2) =
      (Ok buckets, s1 ++ sort vs :: s2) /\
    StronglySorted Qlt (concat buckets).
Proof.
  eexists. split; [apply group_values_nearest_run|].
  apply group_loop_sorted, sort_strongly_sorted.
Qed.

(** X3: a second call on the same list, with any threshold, finds the
    list sorted and leaves the store as it is; with the same threshold
    it returns the same buckets. *)
Theorem group_values_nearest_again (s1 : Store) (vs : list Q) (s2 : Store)
    (closest closest' : Q) :
  let first := group_values_nearest (length s1) closest (s1 ++ vs :: s2) in
  snd (group_values_nearest (length s1) closest' (snd first)) = snd first /\
  group_values_nearest (length s1) closest (snd first) = first.
Proof.
  cbn zeta. rewrite group_values_nearest_run. cbn [snd].
  rewrite !group_values_nearest_run.
  now rewrite (sort_sorted_id (sort vs) (sort_sorted vs)).
Qed.

(** ** The local-maxima search: what it reports *)

Lemma StronglySorted_snoc_rel {A} (R : A -> A -> Prop) (l : list A) v :
  StronglySorted R l -> Forall (fun y => R y v) l ->
  StronglySorted R (l ++ [v]).
Proof.
  induction 1 as [|a l Hs IH Ha]; intros Hv; cbn.
  - repeat constructor.
  - inversion Hv; subst. constructor; [now apply IH|].
    apply Forall_app. split; [exact Ha | now repeat constructor].
Qed.

Section PeakSearch.

Variable x : list Q.
Variable i_max : nat.
Hypothesis i_max_le : (i_max <= length x - 1)%nat.

(** The samples the inner loop steps over equal the plateau's sample. *)
Lemma plateau_end_equal xi fuel : forall i0 j,
  (i0 <= j < plateau_end x xi i_max fuel i0)%nat ->
  (nth j x 0 == xi)%Q.
Proof.
  induction fuel as [|fuel IH]; intros i0 j Hj; cbn [plateau_end] in Hj;
    [lia|].
  destruct (i0 <? i_max)%nat; cbn [andb] in Hj; [|lia].
  destruct (Qeq_bool (nth i0 x 0%Q) xi) eqn:E; [|lia].
  destruct (Nat.eq_dec j i0) as [->|Hne].
  - now apply Qeq_bool_iff.
  - apply (IH (S i0)). lia.
Qed.

(** It stops at a sample that differs, unless it stops at [i_max]. *)
Lemma plateau_end_stop xi fuel : forall i0,
  (i_max - i0 <= fuel)%nat ->
  (plateau_end x xi i_max fuel i0 < i_max)%nat ->
  ~ (nth (plateau_end x xi i_max fuel i0) x 0 == xi)%Q.
Proof.
  induction fuel as [|fuel IH]; intros i0 Hf Hlt; cbn [plateau_end] in *;
    [lia|].
  destruct (i0 <? i_max)%nat eqn:L; cbn [andb] in *.
  - destruct (Qeq_bool (nth i0 x 0%Q) xi) eqn:E.
    + apply IH; [lia | exact Hlt].
    + intros C. apply Qeq_bool_iff in C. congruence.
  - apply Nat.ltb_ge in L. lia.
Qed.

Lemma local_maxima_loop_sound fuel : forall i midpoints,
  (1 <= i)%nat ->
  Forall (plateau_peak x) midpoints ->
  Forall (plateau_peak x) (local_maxima_loop x i_max fuel i midpoints).
Proof.
  induction fuel as [|fuel IH]; intros i midpoints Hi Hm;
    cbn [local_maxima_loop]; [exact Hm|].
  destruct (i <? i_max)%nat eqn:E; [|exact Hm].
  apply Nat.ltb_lt in E.
  pose proof (plateau_end_ge x i_max (nth i x 0%Q) (i_max - (i + 1)) (i + 1))
    as Hge.
  pose proof (plateau_end_le x i_max (nth i x 0%Q) (i_max - (i + 1)) (i + 1))
    as Hle.
  pose proof (plateau_end_equal (nth i x 0%Q) (i_max - (i + 1)) (i + 1))
    as Heq.
  set (e := plateau_end _ _ _ _ _) in *.
  destruct (Qltb (nth (i - 1) x 0%Q) (nth i x 0%Q)) eqn:L;
    [|apply IH; [lia|exact Hm]].
  destruct (Qltb (nth e x 0%Q) (nth i x 0%Q)) eqn:R;
    [|apply IH; [lia|exact Hm]].
  apply IH; [lia|]. apply Forall_app. split; [exact Hm|].
  constructor; [|constructor].
  exists i, (e - 1)%nat. apply Qltb_lt in L, R.
  split; [exact Hi|]. split; [lia|]. split; [lia|].
  split; [reflexivity|]. split; [exact L|]. split.
  - intros j Hj. destruct (Nat.eq_dec j i) as [->|Hne]; [reflexivity|].
    apply Heq. lia.
  - replace (e - 1 + 1)%nat with e by lia. exact R.
Qed.

Lemma local_maxima_loop_gap fuel : forall i midpoints,
  Forall (fun q => (q + 2 <= i)%nat) midpoints ->
  StronglySorted gap2 midpoints ->
  StronglySorted gap2 (local_maxima_loop x i_max fuel i midpoints).
Proof.
  induction fuel as [|fuel IH]; intros i midpoints Hb Hm;
    cbn [local_maxima_loop]; [exact Hm|].
  destruct (i <? i_max)%nat eqn:E; [|exact Hm].
  apply Nat.ltb_lt in E.
  pose proof (plateau_end_ge x i_max (nth i x 0%Q) (i_max - (i + 1)) (i + 1))
    as Hge.
  assert (Hup : Forall (fun q => (q + 2 <= i + 1)%nat) midpoints).
  { eapply List.Forall_impl; [|exact Hb]. cbn. intros q Hq. lia. }
  destruct (Qltb (nth (i - 1) x 0%Q) (nth i x 0%Q));
    [|now apply IH].
  destruct (Qltb _ (nth i x 0%Q)); [|now apply IH].
  set (e := plateau_end _ _ _ _ _) in *.
  assert (Hmid : (i <= (i + (e - 1)) / 2 <= e - 1)%nat)
    by (apply midpoint_between; lia).
  apply IH.
  - apply Forall_app. split.
    + eapply List.Forall_impl; [|exact Hb]. cbv beta. intros q Hq. lia.
    + constructor; [lia|constructor].
  - apply StronglySorted_snoc_rel; [exact Hm|].
    eapply List.Forall_impl; [|exact Hb]. unfold gap2. cbv beta.
    intros q Hq. lia.
Qed.

(** A sample strictly above both its neighbours is reported. *)
Lemma local_maxima_loop_incl fuel : forall i midpoints q,
  In q midpoints -> In q (local_maxima_loop x i_max fuel i midpoints).
Proof.
  induction fuel as [|fuel IH]; intros i midpoints q Hq;
    cbn [local_maxima_loop]; [exact Hq|].
  destruct (i <? i_max)%nat; [|exact Hq].
  destruct (Qltb (nth (i - 1) x 0%Q) (nth i x 0%Q)); [|now apply IH].
  destruct (Qltb _ (nth i x 0%Q)); [|now apply IH].
  apply IH, in_or_app. now left.
Qed.

Lemma plateau_end_strict p fuel :
  (nth (p + 1) x 0 < nth p x 0)%Q ->
  plateau_end x (nth p x 0%Q) i_max fuel (p + 1) = (p + 1)%nat.
Proof.
  intros H. destruct fuel as [|fuel]; [reflexivity|]. cbn [plateau_end].
  destruct (Qeq_bool (nth (p + 1) x 0%Q) (nth p x 0%Q)) eqn:E.
  - apply Qeq_bool_iff in E. lra.
  - now rewrite andb_false_r.
Qed.

Lemma local_maxima_loop_complete p :
  (p < i_max)%nat ->
  (nth (p - 1) x 0 < nth p x 0)%Q -> (nth (p + 1) x 0 < nth p x 0)%Q ->
  forall fuel i midpoints,
    (1 <= i <= p)%nat -> (i_max - i <= fuel)%nat ->
    In p (local_maxima_loop x i_max fuel i midpoints).
Proof.
  intros Hp Hl Hr.
  induction fuel as [|fuel IH]; intros i midpoints Hi Hf; [lia|].
  cbn [local_maxima_loop].
  assert (E : (i <? i_max)%nat = true) by (apply Nat.ltb_lt; lia).
  rewrite E.
  destruct (Nat.eq_dec i p) as [->|Hne].
  - apply Qltb_lt in Hl. rewrite Hl.
    rewrite (plateau_end_strict p _ Hr).
    apply Qltb_lt in Hr. rewrite Hr.
    apply local_maxima_loop_incl, in_or_app. right. left.
    replace (p + (p + 1 - 1))%nat with (p * 2)%nat by lia.
    now rewrite Nat.div_mul.
  - pose proof (plateau_end_ge x i_max (nth i x 0%Q) (i_max - (i + 1)) (i + 1))
      as Hge.
    pose proof (plateau_end_equal (nth i x 0%Q) (i_max - (i + 1)) (i + 1))
      as Heq.
    set (e := plateau_end _ _ _ _ _) in *.
    destruct (Qltb (nth (i - 1) x 0%Q) (nth i x 0%Q));
      [|apply IH; lia].
    destruct (Qltb (nth e x 0%Q) (nth i x 0%Q)) eqn:R; [|apply IH; lia].
    apply Qltb_lt in R.
    assert (He : (e < p)%nat).
    { destruct (Nat.lt_ge_cases e p) as [L|G]; [exact L | exfalso].
      destruct (Nat.eq_dec e p) as [->|Hep].
      - assert (nth (p - 1) x 0 == nth i x 0)%Q.
        { destruct (Nat.eq_dec (p - 1) i) as [->|N]; [reflexivity|].
          apply Heq. lia. }
        lra.
      - assert (nth (p - 1) x 0 == nth i x 0)%Q.
        { destruct (Nat.eq_dec (p - 1) i) as [->|N]; [reflexivity|].
          apply Heq. lia. }
        assert (nth p x 0 == nth i x 0)%Q by (apply Heq; lia).
        lra. }
    apply IH; lia.
Qed.

End PeakSearch.

(** [min] returns a number that is not above any element. *)
Lemma fold_min_le_init rest : forall d,
  (fold_left (fun m y => if Qltb y m then y else m) rest d <= d)%Q.
Proof.
  induction rest as [|z rest IH]; intros d; cbn [fold_left]; [lra|].
  destruct (Qltb z d) eqn:E; [|apply IH].
  apply Qltb_lt in E. specialize (IH z). lra.
Qed.

Lemma fold_min_le_in rest : forall d y,
  In y rest ->
  (fold_left (fun m y => if Qltb y m then y else m) rest d <= y)%Q.
Proof.
  induction rest as [|z rest IH]; intros d y Hy; [destruct Hy|].
  cbn [fold_left]. destruct Hy as [->|Hy]; [|now apply IH].
  destruct (Qltb y d) eqn:E; [apply fold_min_le_init|].
  apply Qltb_ge in E. pose proof (fold_min_le_init rest d). lra.
Qed.

Lemma py_min_le data m y : py_min data = Ok m -> In y data -> (m <= y)%Q.
Proof.
  destruct data as [|d rest]; [discriminate|].
  cbn [py_min]. intros [= <-] [->|Hy].
  - apply fold_min_le_init.
  - now apply fold_min_le_in.
Qed.

Lemma filter_Forall_id {A} (f : A -> bool) (l : list A) :
  Forall (fun a => f a = true) l -> List.filter f l = l.
Proof.
  induction 1 as [|a l Ha Hl IH]; cbn; [reflexivity|]. now rewrite Ha, IH.
Qed.

Lemma find_peaks_keeps_all (data : list Q) (m : Q) :
  py_min data = Ok m -> find_peaks data m = _local_maxima_1d data.
Proof.
  intros Hm. unfold find_peaks. apply filter_Forall_id.
  eapply List.Forall_impl; [|apply _local_maxima_1d_range].
  cbv beta. intros p Hp. apply Qle_bool_iff.
  apply (py_min_le data m); [exact Hm|]. apply nth_In. lia.
Qed.

(** X4: the [height] given to [find_peaks] is the least sample, so it
    rejects nothing: every local maximum is kept. *)
Theorem find_peaks_height_min (data : list Q) (m : Q) :
  py_min data = Ok m -> find_peaks data m = _local_maxima_1d data.
Proof. apply find_peaks_keeps_all. Qed.

Lemma find_peaks_height_min_witness :
  py_min series = Ok 1%Q /\ find_peaks series 1 = _local_maxima_1d series.
Proof.
  split; [reflexivity|]. apply (find_peaks_height_min series 1). reflexivity.
Defined.

Lemma peak_positions_all values direction :
  values <> [] ->
  peak_positions values direction =
  _local_maxima_1d (directed values direction).
Proof.
  intros Hv. unfold peak_positions. apply find_peaks_keeps_all.
  now apply py_min_directed.
Qed.

(** X5: with a falsy [rounded], every position [_peaks_detection]
    returns is the middle of a plateau of equal samples of the searched
    array that lies strictly inside it and has a lower sample on either
    side. *)
Theorem peaks_are_plateau_middles (values : list Q) (rounded : option Z)
    (direction : string) :
  values <> [] -> truthy rounded = false ->
  exists idx,
    _peaks_detection values rounded direction = Ok (PeakIndices idx) /\
    Forall (plateau_peak (directed values direction)) idx.
Proof.
  intros Hv Hr. exists (peak_positions values direction).
  split; [now apply _peaks_detection_indices|].
  rewrite (peak_positions_all values direction Hv).
  unfold _local_maxima_1d.
  apply local_maxima_loop_sound; [lia | lia | constructor].
Qed.

Lemma peaks_are_plateau_middles_witness :
  series <> [] /\ truthy None = false /\
  exists idx,
    _peaks_detection series None "down" = Ok (PeakIndices idx) /\
    Forall (plateau_peak (directed series "down")) idx.
Proof.
  split; [discriminate|]. split; [reflexivity|].
  apply (peaks_are_plateau_middles series None "down");
    [discriminate | reflexivity].
Defined.

Lemma gap2_count (l : list nat) : forall lo hi,
  StronglySorted gap2 l ->
  Forall (fun p => (lo <= p <= hi)%nat) l ->
  l = [] \/ (2 * length l <= hi - lo + 2)%nat.
Proof.
  induction l as [|p l IH]; intros lo hi Hs Hr; [now left|]. right.
  inversion Hs as [|? ? Hs' Hall]; subst.
  inversion Hr as [|? ? Hp Hr']; subst.
  destruct (IH (p + 2)%nat hi Hs') as [->|Hl].
  - apply Forall_forall. intros q Hq.
    rewrite Forall_forall in Hall, Hr'.
    specialize (Hall q Hq). specialize (Hr' q Hq). unfold gap2 in Hall. lia.
  - cbn. lia.
  - destruct l as [|q l]; [cbn; lia|].
    inversion Hall as [|? ? Hq _]; subst. inversion Hr' as [|? ? Hq' _]; subst.
    unfold gap2 in Hq. cbn [length] in *. lia.
Qed.

(** X6: the positions come in ascending order with at least one
    position between two of them, so a series of [n] samples has at
    most [(n - 1) / 2] peaks. *)
Theorem peaks_spacing (values : list Q) (rounded : option Z)
    (direction : string) :
  values <> [] -> truthy rounded = false ->
  exists idx,
    _peaks_detection values rounded direction = Ok (PeakIndices idx) /\
    StronglySorted gap2 idx /\
    (2 * length idx + 1 <= length values)%nat.
Proof.
  intros Hv Hr. exists (peak_positions values direction).
  split; [now apply _peaks_detection_indices|].
  assert (G : StronglySorted gap2 (peak_positions values direction)).
  { rewrite (peak_positions_all values direction Hv).
    unfold _local_maxima_1d. apply local_maxima_loop_gap; constructor. }
  split; [exact G|].
  pose proof (peak_positions_range values direction) as R.
  destruct (gap2_count _ 1%nat (length values - 2)%nat G) as [E|C].
  - eapply List.Forall_impl; [|exact R]. cbv beta. intros p Hp. lia.
  - rewrite E. destruct values; [easy | cbn; lia].
  - destruct (peak_positions values direction) as [|p l].
    + destruct values; [easy | cbn; lia].
    + inversion R; subst. cbn [length] in *. lia.
Qed.

Lemma peaks_spacing_witness :
  series <> [] /\ truthy (Some 0%Z) = false /\
  exists idx,
    _peaks_detection series (Some 0%Z) "up" = Ok (PeakIndices idx) /\
    StronglySorted gap2 idx /\
    (2 * length idx + 1 <= length series)%nat.
Proof.
  split; [discriminate|]. split; [reflexivity|].
  apply (peaks_spacing series (Some 0%Z) "up"); [discriminate | reflexivity].
Defined.

(** X7: a sample of the searched array that is strictly above both its
    neighbours is among the positions returned. *)
Theorem strict_peak_reported (values : list Q) (rounded : option Z)
    (direction : string) (p : nat) :
  truthy rounded = false ->
  (1 <= p)%nat -> (p + 1 < length values)%nat ->
  (nth (p - 1) (directed values direction) 0 <
     nth p (directed values direction) 0)%Q ->
  (nth (p + 1) (directed values direction) 0 <
     nth p (directed values direction) 0)%Q ->
  exists idx,
    _peaks_detection values rounded direction = Ok (PeakIndices idx) /\
    In p idx.
Proof.
  intros Hr Hp1 Hp2 Hl Hg.
  assert (Hv : values <> []) by (destruct values; [cbn in Hp2; lia | easy]).
  exists (peak_positions values direction).
  split; [now apply _peaks_detection_indices|].
  rewrite (peak_positions_all values direction Hv).
  unfold _local_maxima_1d. rewrite directed_length.
  apply local_maxima_loop_complete; try assumption; try lia.
  rewrite directed_length. lia.
Qed.

Lemma strict_peak_reported_witness :
  truthy None = false /\ (1 <= 3)%nat /\ (3 + 1 < length series)%nat /\
  (nth (3 - 1) (directed series "up") 0 < nth 3 (directed series "up") 0)%Q /\
  (nth (3 + 1) (directed series "up") 0 < nth 3 (directed series "up") 0)%Q /\
  exists idx,
    _peaks_detection series None "up" = Ok (PeakIndices idx) /\ In 3%nat idx.
Proof.
  split; [reflexivity|]. split; [lia|]. split; [cbn; lia|].
  split; [reflexivity|]. split; [reflexivity|].
  apply (strict_peak_reported series None "up" 3);
    [reflexivity | lia | cbn; lia | reflexivity | reflexivity].
Defined.

(** ** Series that never fall or never rise *)

Lemma StronglySorted_nth (R : Q -> Q -> Prop) (l : list Q) :
  (forall a, R a a) -> StronglySorted R l ->
  forall i j, (i <= j < length l)%nat -> R (nth i l 0%Q) (nth j l 0%Q).
Proof.
  intros Hrefl. induction 1 as [|a l Hs IH Ha]; intros i j Hij;
    [cbn in Hij; lia|].
  destruct i as [|i], j as [|j]; cbn [nth length] in *; try lia.
  - apply Hrefl.
  - rewrite List.Forall_forall in Ha. apply Ha, nth_In. lia.
  - apply IH. lia.
Qed.

Lemma nth_directed values direction i :
  nth i (directed values direction) 0%Q =
  if String.eqb direction "down" then (- nth i values 0)%Q
  else nth i values 0%Q.
Proof.
  unfold directed. destruct (String.eqb direction "down"); [|reflexivity].
  exact (map_nth Qopp values 0%Q i).
Qed.

Section Monotone.

Variable x : list Q.
Variable i_max : nat.
Hypothesis i_max_le : (i_max <= length x - 1)%nat.

Lemma local_maxima_loop_rising :
  (forall i j, (i <= j < length x)%nat -> (nth i x 0 <= nth j x 0)%Q) ->
  forall fuel i midpoints,
    local_maxima_loop x i_max fuel i midpoints = midpoints.
Proof.
  intros Hx. induction fuel as [|fuel IH]; intros i midpoints;
    cbn [local_maxima_loop]; [reflexivity|].
  destruct (i <? i_max)%nat eqn:E; [|reflexivity].
  apply Nat.ltb_lt in E.
  pose proof (plateau_end_ge x i_max (nth i x 0%Q) (i_max - (i + 1)) (i + 1))
    as Hge.
  pose proof (plateau_end_le x i_max (nth i x 0%Q) (i_max - (i + 1)) (i + 1))
    as Hle.
  set (e := plateau_end _ _ _ _ _) in *.
  destruct (Qltb (nth (i - 1) x 0%Q) (nth i x 0%Q)); [|apply IH].
  assert (R : Qltb (nth e x 0%Q) (nth i x 0%Q) = false).
  { apply Qltb_ge, Hx. lia. }
  rewrite R. apply IH.
Qed.

Lemma local_maxima_loop_falling :
  (forall i j, (i <= j < length x)%nat -> (nth j x 0 <= nth i x 0)%Q) ->
  forall fuel i midpoints,
    (1 <= i)%nat ->
    local_maxima_loop x i_max fuel i midpoints = midpoints.
Proof.
  intros Hx. induction fuel as [|fuel IH]; intros i midpoints Hi;
    cbn [local_maxima_loop]; [reflexivity|].
  destruct (i <? i_max)%nat eqn:E; [|reflexivity].
  apply Nat.ltb_lt in E.
  assert (L : Qltb (nth (i - 1) x 0%Q) (nth i x 0%Q) = false).
  { apply Qltb_ge, Hx. lia. }
  rewrite L. apply IH. lia.
Qed.

End Monotone.

Lemma monotone_no_maxima values direction :
  Sorted Qle values \/ Sorted (flip Qle) values ->
  _local_maxima_1d (directed values direction) = [].
Proof.
  intros H. unfold _local_maxima_1d.
  assert (Up : Sorted Qle values ->
    forall i j, (i <= j < length values)%nat ->
      (nth i values 0 <= nth j values 0)%Q).
  { intros S. apply StronglySorted_nth; [exact Qle_refl|].
    apply Sorted_StronglySorted; [exact Qle_trans | exact S]. }
  assert (Down : Sorted (flip Qle) values ->
    forall i j, (i <= j < length values)%nat ->
      (nth j values 0 <= nth i values 0)%Q).
  { intros S. apply (StronglySorted_nth (flip Qle)); [exact Qle_refl|].
    apply Sorted_StronglySorted; [|exact S].
    intros a b c Hab Hbc. unfold flip in *. lra. }
  destruct (String.eqb direction "down") eqn:D.
  - destruct H as [S|S].
    + apply local_maxima_loop_falling; [lia| |lia].
      intros i j Hij. rewrite !nth_directed, D.
      rewrite directed_length in Hij. specialize (Up S i j Hij). lra.
    + apply local_maxima_loop_rising; [lia|].
      intros i j Hij. rewrite !nth_directed, D.
      rewrite directed_length in Hij. specialize (Down S i j Hij). lra.
  - destruct H as [S|S].
    + apply local_maxima_loop_rising; [lia|].
      intros i j Hij. rewrite !nth_directed, D.
      rewrite directed_length in Hij. now apply Up.
    + apply local_maxima_loop_falling; [lia| |lia].
      intros i j Hij. rewrite !nth_directed, D.
      rewrite directed_length in Hij. now apply Down.
Qed.

(** X8: a series that is not empty and never falls, or never rises (a
    flat one among them), has no peak in either direction, and the
    aggregator returns no level for it. *)
Theorem monotone_no_levels (T : dtype) (values : list Q)
    (rounded : option Z) (direction : string) (closest : Q) (s : Store) :
  values <> [] ->
  Sorted Qle values \/ Sorted (flip Qle) values ->
  _peaks_detection values rounded direction =
    Ok (if truthy rounded then PeakValues [] else PeakIndices []) /\
  _get_support_resistances T values direction closest s =
    (Ok [], s ++ [[]]).
Proof.
  intros Hv Hm.
  assert (P : peak_positions values direction = []).
  { rewrite (peak_positions_all values direction Hv).
    now apply monotone_no_maxima. }
  split.
  - destruct (truthy rounded) eqn:E.
    + destruct rounded as [n|]; [|discriminate E].
      cbn in E. apply negb_true_iff, Z.eqb_neq in E.
      now rewrite (_peaks_detection_values values n direction Hv E), P.
    + now rewrite (_peaks_detection_indices values rounded direction Hv E), P.
  - rewrite (_get_support_resistances_run T values direction closest s Hv).
    unfold rounded_peaks. now rewrite P.
Qed.

Lemma monotone_no_levels_witness :
  [1; 2; 2; 5]%Q <> [] /\
  (Sorted Qle [1; 2; 2; 5]%Q \/ Sorted (flip Qle) [1; 2; 2; 5]%Q) /\
  _peaks_detection [1; 2; 2; 5]%Q (Some 3%Z) "down" =
    Ok (if truthy (Some 3%Z) then PeakValues [] else PeakIndices []) /\
  _get_support_resistances Int64 [1; 2; 2; 5]%Q "down" 2 [] =
    (Ok [], [] ++ [[]]).
Proof.
  assert (S : Sorted Qle [1; 2; 2; 5]%Q)
    by (repeat constructor; discriminate).
  split; [discriminate|]. split; [now left|].
  apply (monotone_no_levels Int64 [1; 2; 2; 5]%Q (Some 3%Z) "down" 2 []);
    [discriminate | now left].
Defined.

(** ** The levels *)

Lemma fold_Qplus_acc l : forall a,
  (fold_left Qplus l a == a + fold_left Qplus l 0)%Q.
Proof.
  induction l as [|x l IH]; intros a; cbn [fold_left]; [lra|].
  rewrite (IH (a + x)%Q), (IH (0 + x)%Q). lra.
Qed.

Lemma fold_Qplus_cons x l :
  (fold_left Qplus (x :: l) 0 == x + fold_left Qplus l 0)%Q.
Proof. cbn [fold_left]. rewrite fold_Qplus_acc. lra. Qed.









Lemma confirmed_count bs :
  (3 * length (List.filter confirmed bs) <= length (concat bs))%nat.
Proof.
  induction bs as [|b bs IH]; cbn [concat List.filter]; [cbn; lia|].
  rewrite length_app. destruct (confirmed b) eqn:C; [|lia].
  unfold confirmed in C. apply Nat.leb_le in C. cbn [length]. lia.
Qed.

Lemma peak_positions_count values direction :
  values <> [] ->
  (2 * length (peak_positions values direction) + 1 <= length values)%nat.
Proof.
  intros Hv.
  assert (G : StronglySorted gap2 (peak_positions values direction)).
  { rewrite (peak_positions_all values direction Hv).
    unfold _local_maxima_1d. apply local_maxima_loop_gap; constructor. }
  pose proof (peak_positions_range values direction) as R.
  destruct (gap2_count _ 1%nat (length values - 2)%nat G) as [E|C].
  - eapply List.Forall_impl; [|exact R]. cbv beta. intros p Hp. lia.
  - rewrite E. destruct values; [easy | cbn; lia].
  - destruct (peak_positions values direction) as [|p l].
    + destruct values; [easy | cbn; lia].
    + inversion R; subst. cbn [length] in *. lia.
Qed.


















(** X10: every level takes three peaks and every peak two samples more:
    a series of [n] samples gives at most [(n - 1) / 6] levels, and
    none when it has fewer than 7 samples. *)
Theorem levels_count (T : dtype) (values : list Q) (direction : string)
    (closest : Q) (s : Store) :
  values <> [] ->
  exists levels,
    fst (_get_support_resistances T values direction closest s) =
      Ok levels /\
    (6 * length levels + 1 <= length values)%nat /\
    ((length values < 7)%nat -> levels = []).
Proof.
  intros Hv. eexists.
  rewrite (_get_support_resistances_run T values direction closest s Hv).
  split; [reflexivity|].
  set (peaks := rounded_peaks values direction).
  set (bs := group_loop (sort peaks) closest).
  set (lvl := fun val => convert T (average val)).
  assert (B : (6 * length (map lvl (List.filter confirmed bs)) + 1 <=
               length values)%nat).
  { rewrite length_map.
    pose proof (confirmed_count bs) as C.
    pose proof (sublist_length _ _ (group_loop_sublist closest (sort peaks)))
      as L.
    fold bs in L. rewrite sort_length in L.
    pose proof (peak_positions_count values direction Hv) as P.
    unfold peaks, rounded_peaks in L. rewrite length_map in L. lia. }
  split; [exact B|].
  intros Hn. destruct (map lvl (List.filter confirmed bs)); [reflexivity|].
  cbn [length] in B. lia.
Qed.

Lemma levels_count_witness :
  series <> [] /\
  exists levels,
    fst (_get_support_resistances Int64 series "up" 2 []) = Ok levels /\
    (6 * length levels + 1 <= length series)%nat /\
    ((length series < 7)%nat -> levels = []).
Proof.
  split; [discriminate|].
  apply (levels_count Int64 series "up" 2 []). discriminate.
Defined.






(** * The array indicators *)

(** ** Sums and convolutions *)

Section Sums.

Local Abbreviation Qsum l := (fold_left Qplus l 0%Q).

Lemma Qsum_app (l1 l2 : list Q) : (Qsum (l1 ++ l2) == Qsum l1 + Qsum l2)%Q.
Proof. rewrite fold_left_app, fold_Qplus_acc. reflexivity. Qed.

Lemma Qsum_map_ext {A} (f g : A -> Q) (l : list A) :
  (forall j, In j l -> (f j == g j)%Q) ->
  (Qsum (map f l) == Qsum (map g l))%Q.
Proof.
  induction l as [|j l IH]; intros H; [reflexivity|].
  cbn [map]. rewrite !fold_Qplus_cons, IH, (H j).
  - reflexivity.
  - now left.
  - intros i Hi. apply H. now right.
Qed.

Lemma Qsum_map_zero {A} (f : A -> Q) (l : list A) :
  (forall j, In j l -> (f j == 0)%Q) -> (Qsum (map f l) == 0)%Q.
Proof.
  intros H. rewrite (Qsum_map_ext f (fun _ => 0%Q) l H).
  clear H. induction l as [|j l IH]; [reflexivity|].
  cbn [map]. rewrite fold_Qplus_cons, IH. lra.
Qed.

Lemma Qsum_map_mult_r (c : Q) (l : list Q) :
  (Qsum (map (fun y => y * c) l) == Qsum l * c)%Q.
Proof.
  induction l as [|y l IH]; [cbn; lra|].
  cbn [map]. rewrite !fold_Qplus_cons, IH. lra.
Qed.

Lemma Qsum_nth_take (b : list Q) : forall cnt,
  (Qsum (map (fun i => nth i b 0%Q) (seq 0 cnt)) == Qsum (take cnt b))%Q.
Proof.
  induction b as [|y b IH]; intros cnt.
  - rewrite take_nil. apply Qsum_map_zero. intros i _. now destruct i.
  - destruct cnt as [|cnt]; [reflexivity|].
    cbn [seq map take nth]. rewrite <- seq_shift, map_map.
    rewrite !fold_Qplus_cons. cbn [nth]. now rewrite IH.
Qed.

Lemma nth_drop (a : list Q) lo i : nth i (drop lo a) 0%Q = nth (lo + i) a 0%Q.
Proof. now rewrite !nth_lookup, lookup_drop. Qed.

Lemma Qsum_nth_window (a : list Q) lo cnt :
  (Qsum (map (fun j => nth j a 0%Q) (seq lo cnt)) ==
   Qsum (take cnt (drop lo a)))%Q.
Proof.
  rewrite <- Qsum_nth_take.
  replace (seq lo cnt) with (map (Nat.add lo) (seq 0 cnt)).
  - rewrite map_map. apply Qsum_map_ext. intros i _. now rewrite nth_drop.
  - rewrite <- (Nat.add_0_r lo) at 2. apply (fmap_add_seq lo 0 cnt).
Qed.

Lemma nth_replicate (c : Q) w i :
  nth i (replicate w c) 0%Q = if (i <? w)%nat then c else 0%Q.
Proof.
  revert i. induction w as [|w IH]; intros [|i]; cbn [replicate nth];
    try reflexivity.
  rewrite IH. reflexivity.
Qed.

(** Against a constant kernel the convolution is a window sum. *)
Lemma conv_replicate (a : list Q) (c : Q) w k :
  (Np.conv_at a (replicate w c) k ==
   Qsum (take (S k - (S k - w)) (drop (S k - w) a)) * c)%Q.
Proof.
  unfold Np.conv_at. set (lo := (S k - w)%nat).
  replace (seq 0 (S k)) with (seq 0 lo ++ seq lo (S k - lo)).
  - rewrite map_app, Qsum_app.
    rewrite Qsum_map_zero.
    + rewrite <- Qsum_nth_window, <- Qsum_map_mult_r, map_map.
      rewrite Qplus_0_l. apply Qsum_map_ext. intros j Hj.
      apply in_seq in Hj. rewrite nth_replicate.
      assert (E : (k - j <? w)%nat = true) by (apply Nat.ltb_lt; lia).
      now rewrite E.
    + intros j Hj. apply in_seq in Hj. rewrite nth_replicate.
      assert (E : (k - j <? w)%nat = false) by (apply Nat.ltb_ge; lia).
      rewrite E. lra.
  - rewrite <- seq_app. f_equal. lia.
Qed.

End Sums.

(** ** [moving_average] *)

Lemma np_convolve_run (a v : list Q) (m : Np.mode) :
  a <> [] -> v <> [] ->
  Np.np_convolve a v m =
  Np.Return
    (match m with
     | Np.Full => map (Np.conv_at a v) (seq 0 (length a + length v - 1))
     | Np.Valid =>
         map (Np.conv_at a v)
           (seq (Nat.min (length a) (length v) - 1)
              (Nat.max (length a) (length v) -
               Nat.min (length a) (length v) + 1))
     end).
Proof. destruct a, v; easy. Qed.

Lemma np_convolve_empty (a v : list Q) (m : Np.mode) :
  a = [] \/ v = [] -> Np.np_convolve a v m = Np.Raises Np.ValueError.
Proof. intros [-> | ->]; [reflexivity | now destruct a]. Qed.

Lemma replicate_nonempty {A} n (c : A) : (1 <= n)%nat -> replicate n c <> [].
Proof. destruct n; [lia | easy]. Qed.

Lemma seq_from lo cnt : seq lo cnt = map (Nat.add lo) (seq 0 cnt).
Proof.
  rewrite <- (Nat.add_0_r lo) at 1. symmetry. apply (fmap_add_seq lo 0 cnt).
Qed.

Lemma map_const_seq {A} (c : A) lo cnt :
  map (fun _ => c) (seq lo cnt) = replicate cnt c.
Proof.
  revert lo. induction cnt as [|cnt IH]; intros lo; [reflexivity|].
  cbn. now rewrite IH.
Qed.

Lemma moving_average_run (values : list Q) (w : Z) :
  (1 <= w)%Z -> values <> [] ->
  Np.moving_average values w =
  Np.Return
    (map (fun k =>
            Np.py_div
              (Np.conv_at values (replicate (Z.to_nat w) 1%Q)
                 (Nat.min (length values) (Z.to_nat w) - 1 + k))
              (inject_Z w))
       (seq 0 (Nat.max (length values) (Z.to_nat w) -
               Nat.min (length values) (Z.to_nat w) + 1))).
Proof.
  intros Hw Hv. unfold Np.moving_average, Np.np_ones.
  assert (E : (w <? 0)%Z = false) by lia. rewrite E. cbn [Np.rbind].
  rewrite np_convolve_run
    by first [exact Hv | apply replicate_nonempty; lia].
  cbn [Np.rbind]. rewrite length_replicate.
  now rewrite (seq_from (_ - 1)), !map_map.
Qed.

Lemma moving_average_means (values : list Q) (w : Z) :
  (1 <= w <= Z.of_nat (length values))%Z ->
  Np.moving_average values w =
  Np.Return
    (map (fun k => average (take (Z.to_nat w) (drop k values)))
       (seq 0 (length values - Z.to_nat w + 1))).
Proof.
  intros Hw.
  assert (Hv : values <> []) by (destruct values; [cbn in Hw; lia | easy]).
  rewrite moving_average_run by (try exact Hv; lia). f_equal.
  replace (Nat.max (length values) (Z.to_nat w) -
           Nat.min (length values) (Z.to_nat w) + 1)%nat
    with (length values - Z.to_nat w + 1)%nat by lia.
  replace (Nat.min (length values) (Z.to_nat w)) with (Z.to_nat w) by lia.
  apply map_ext_in. intros k Hk. apply in_seq in Hk.
  unfold Np.py_div, average. apply Qred_complete.
  rewrite conv_replicate.
  replace (S (Z.to_nat w - 1 + k) - Z.to_nat w)%nat with k by lia.
  replace (S (Z.to_nat w - 1 + k) - k)%nat with (Z.to_nat w) by lia.
  rewrite length_take, length_drop.
  replace (Z.of_nat (Nat.min (Z.to_nat w) (length values - k))) with w by lia.
  now rewrite Qmult_1_r.
Qed.

(** X11: with a window of [1 <= w <= len(values)] samples,
    [moving_average] returns the [len(values) - w + 1] means of the
    windows of [w] neighbouring samples, in order. *)
Theorem moving_average_windows (values : list Q) (w : Z) :
  (1 <= w <= Z.of_nat (length values))%Z ->
  Np.moving_average values w =
  Np.Return
    (map (fun k => average (take (Z.to_nat w) (drop k values)))
       (seq 0 (length values - Z.to_nat w + 1))).
Proof. apply moving_average_means. Qed.

Lemma moving_average_windows_witness :
  (1 <= 2 <= Z.of_nat (length [1; 2; 3; 4]%Q))%Z /\
  Np.moving_average [1; 2; 3; 4]%Q 2 =
  Np.Return
    (map (fun k => average (take (Z.to_nat 2) (drop k [1; 2; 3; 4]%Q)))
       (seq 0 (length [1; 2; 3; 4]%Q - Z.to_nat 2 + 1))).
Proof.
  split; [cbn; lia|].
  apply (moving_average_windows [1; 2; 3; 4]%Q 2). cbn. lia.
Defined.

(** X12: a window longer than the series is not refused: the result is
    [w - len(values) + 1] copies of the sum of all samples over [w]. *)
Theorem moving_average_long_window (values : list Q) (w : Z) :
  values <> [] -> (Z.of_nat (length values) < w)%Z ->
  Np.moving_average values w =
  Np.Return
    (replicate (Z.to_nat w - length values + 1)
       (Np.py_div (fold_left Qplus values 0%Q) (inject_Z w))).
Proof.
  intros Hv Hw. rewrite moving_average_run by (try exact Hv; lia). f_equal.
  assert (Hn : (1 <= length values)%nat)
    by (destruct values; [easy | cbn; lia]).
  replace (Nat.max (length values) (Z.to_nat w) -
           Nat.min (length values) (Z.to_nat w) + 1)%nat
    with (Z.to_nat w - length values + 1)%nat by lia.
  replace (Nat.min (length values) (Z.to_nat w)) with (length values) by lia.
  rewrite <- (map_const_seq
    (Np.py_div (fold_left Qplus values 0%Q) (inject_Z w)) 0
    (Z.to_nat w - length values + 1)).
  apply map_ext_in. intros k Hk.
  apply in_seq in Hk. unfold Np.py_div. apply Qred_complete.
  rewrite conv_replicate.
  replace (S (length values - 1 + k) - Z.to_nat w)%nat with 0%nat by lia.
  rewrite drop_0, take_ge by lia. now rewrite Qmult_1_r.
Qed.

Lemma moving_average_long_window_witness :
  [1; 2]%Q <> [] /\ (Z.of_nat (length [1; 2]%Q) < 4)%Z /\
  Np.moving_average [1; 2]%Q 4 =
  Np.Return
    (replicate (Z.to_nat 4 - length [1; 2]%Q + 1)
       (Np.py_div (fold_left Qplus [1; 2]%Q 0%Q) (inject_Z 4))).
Proof.
  split; [discriminate|]. split; [cbn; lia|].
  apply (moving_average_long_window [1; 2]%Q 4); [discriminate | cbn; lia].
Defined.

(** X13: [moving_average] raises [ValueError] exactly when the window
    is not positive or the series is empty; it raises nothing else. *)
Theorem moving_average_errors (values : list Q) (w : Z) :
  (Np.moving_average values w = Np.Raises Np.ValueError <->
   (w <= 0)%Z \/ values = []) /\
  Np.moving_average values w <> Np.Raises Np.IndexError.
Proof.
  assert (Bad : (w <= 0)%Z \/ values = [] ->
    Np.moving_average values w = Np.Raises Np.ValueError).
  { intros H. unfold Np.moving_average, Np.np_ones.
    destruct (w <? 0)%Z eqn:E; [reflexivity|]. cbn [Np.rbind].
    rewrite np_convolve_empty; [reflexivity|].
    destruct H as [H | ->]; [|now left].
    right. now replace w with 0%Z by lia. }
  destruct (Z_le_gt_dec w 0) as [Hw|Hw];
    [split; [split; [now left | intros _; apply Bad; now left]
            | rewrite Bad by (now left); discriminate]|].
  destruct values as [|v values];
    [split; [split; [now right | intros _; apply Bad; now right]
            | rewrite Bad by (now right); discriminate]|].
  rewrite moving_average_run by (try discriminate; lia).
  split; [|discriminate]. split; [discriminate|].
  intros [H|H]; [lia | discriminate H].
Qed.

(** ** [rolling_mean] and [remove_nan] *)

Lemma length_cumsum_from l : forall acc,
  length (Np.cumsum_from acc l) = length l.
Proof.
  induction l as [|y l IH]; intros acc; cbn; [reflexivity | now rewrite IH].
Qed.

Lemma nth_zip_with_minus (l1 l2 : list Q) : forall i,
  (i < length l1)%nat -> (i < length l2)%nat ->
  nth i (zip_with Qminus l1 l2) 0%Q = (nth i l1 0 - nth i l2 0)%Q.
Proof.
  revert l2. induction l1 as [|a l1 IH]; intros [|b l2] i H1 H2;
    cbn in H1, H2; try lia.
  destruct i as [|i]; [reflexivity|]. cbn. apply IH; lia.
Qed.

Lemma map_nth_seq {B} (f : Q -> B) (l : list Q) : forall (g : nat -> B),
  (forall k, (k < length l)%nat -> f (nth k l 0%Q) = g k) ->
  map f l = map g (seq 0 (length l)).
Proof.
  induction l as [|y l IH]; intros g H; [reflexivity|].
  cbn [map length seq]. rewrite <- seq_shift, map_map. f_equal.
  - apply (H 0%nat). cbn. lia.
  - apply IH. intros k Hk. apply (H (S k)). cbn. lia.
Qed.

Lemma nth_take (l : list Q) n i :
  (i < n)%nat -> nth i (take n l) 0%Q = nth i l 0%Q.
Proof. intros H. now rewrite !nth_lookup, lookup_take_lt. Qed.

Lemma slice_bound_pos n (i : Z) :
  (0 <= i)%Z -> Np.slice_bound n i = Nat.min (Z.to_nat i) n.
Proof.
  intros H. unfold Np.slice_bound.
  assert (E : (i <? 0)%Z = false) by lia. now rewrite E.
Qed.

Lemma slice_bound_neg n (i : Z) :
  (i < 0)%Z -> Np.slice_bound n i = (n - Z.to_nat (- i))%nat.
Proof.
  intros H. unfold Np.slice_bound.
  assert (E : (i <? 0)%Z = true) by lia. rewrite E. lia.
Qed.

(** Entry [k] of [mva]: the running sum at the end of window [k], less
    the running sum just before the window when there is one, over
    [length]. *)
Lemma rolling_mean_run (values : list Q) (length : Z) :
  (1 <= length <= Z.of_nat (List.length values))%Z ->
  Np.rolling_mean values length =
  Np.Return
    (replicate (Z.to_nat length) None ++
     map (fun k =>
            Some (Np.py_div
                    match k with
                    | O => nth (Z.to_nat length - 1) (Np.np_cumsum values) 0%Q
                    | S j =>
                        nth (Z.to_nat length + j) (Np.np_cumsum values) 0%Q -
                        nth j (Np.np_cumsum values) 0%Q
                    end (inject_Z length)))
       (seq 0 (List.length values - Z.to_nat length + 1))).
Proof.
  intros HL. unfold Np.rolling_mean, Np.slice_from, Np.slice_to.
  set (n := List.length values) in *. set (W := Z.to_nat length).
  set (ret := Np.np_cumsum values).
  assert (Hret : List.length ret = n) by apply length_cumsum_from.
  rewrite Hret, slice_bound_pos, slice_bound_neg by lia.
  replace (Z.to_nat (- - length)) with W by lia. fold W.
  replace (Nat.min W n) with W by lia.
  rewrite length_drop, length_take, Hret.
  replace (Nat.min (n - W) n) with (n - W)%nat by lia.
  rewrite Nat.eqb_refl.
  replace (n - (n - W))%nat with W by lia.
  set (ret' := take W ret ++ zip_with Qminus (drop W ret) (take (n - W) ret)).
  assert (Hret' : List.length ret' = n).
  { unfold ret'. rewrite length_app, length_take, length_zip_with,
      length_drop, length_take, Hret. lia. }
  rewrite Hret', slice_bound_pos by lia.
  replace (Nat.min (Z.to_nat (length - 1)) n) with (W - 1)%nat by lia.
  f_equal. f_equal. rewrite map_map.
  replace (n - W + 1)%nat with (List.length (drop (W - 1) ret'))
    by (rewrite length_drop, Hret'; lia).
  apply map_nth_seq. intros k Hk. rewrite length_drop, Hret' in Hk.
  f_equal. f_equal. rewrite nth_drop.
  unfold ret'. destruct k as [|k].
  - rewrite app_nth1 by (rewrite length_take, Hret; lia).
    rewrite nth_take by lia. f_equal. lia.
  - rewrite app_nth2 by (rewrite length_take, Hret; lia).
    rewrite length_take, Hret.
    replace (W - 1 + S k - Nat.min W n)%nat with k by lia.
    rewrite nth_zip_with_minus
      by (rewrite ?length_drop, ?length_take, Hret; lia).
    now rewrite nth_drop, nth_take by lia.
Qed.

Lemma remove_nan_padded n (m : list Q) :
  Np.remove_nan (replicate n None ++ map Some m) = map Some m.
Proof.
  unfold Np.remove_nan. rewrite List.filter_app.
  replace (List.filter (fun v => negb (Np.isnan v)) (replicate n None))
    with (@nil (option Q)) by (induction n; [reflexivity | assumption]).
  cbn [app]. induction m as [|y m IH]; [reflexivity|].
  cbn. now rewrite IH.
Qed.

(** X14: with a window of [1 <= length <= len(values)] samples,
    [rolling_mean] returns [length] NaNs followed by
    [len(values) - length + 1] numbers, one entry more than the series
    has.  With [cs] the running sums of the series, the first number is
    [cs[length - 1] / length] and the number [k >= 1] places later is
    [(cs[length - 1 + k] - cs[k - 1]) / length]. *)
Theorem rolling_mean_windows (values : list Q) (length : Z) :
  (1 <= length <= Z.of_nat (List.length values))%Z ->
  exists out,
    Np.rolling_mean values length = Np.Return out /\
    out =
      replicate (Z.to_nat length) None ++
      map (fun k =>
             Some (Np.py_div
                     match k with
                     | O => nth (Z.to_nat length - 1) (Np.np_cumsum values) 0%Q
                     | S j =>
                         nth (Z.to_nat length + j) (Np.np_cumsum values) 0%Q -
                         nth j (Np.np_cumsum values) 0%Q
                     end (inject_Z length)))
        (seq 0 (List.length values - Z.to_nat length + 1)) /\
    List.length out = S (List.length values).
Proof.
  intros HL. eexists. split; [now apply rolling_mean_run|].
  split; [reflexivity|].
  rewrite length_app, length_replicate, length_map, length_seq. lia.
Qed.

Lemma rolling_mean_windows_witness :
  (1 <= 2 <= Z.of_nat (List.length [1; 2; 3; 4]%Q))%Z /\
  exists out,
    Np.rolling_mean [1; 2; 3; 4]%Q 2 = Np.Return out /\
    out =
      replicate (Z.to_nat 2) None ++
      map (fun k =>
             Some (Np.py_div
                     match k with
                     | O => nth (Z.to_nat 2 - 1)
                              (Np.np_cumsum [1; 2; 3; 4]%Q) 0%Q
                     | S j =>
                         nth (Z.to_nat 2 + j) (Np.np_cumsum [1; 2; 3; 4]%Q) 0%Q -
                         nth j (Np.np_cumsum [1; 2; 3; 4]%Q) 0%Q
                     end (inject_Z 2)))
        (seq 0 (List.length [1; 2; 3; 4]%Q - Z.to_nat 2 + 1)) /\
    List.length out = S (List.length [1; 2; 3; 4]%Q).
Proof.
  split; [cbn; lia|].
  apply (rolling_mean_windows [1; 2; 3; 4]%Q 2). cbn. lia.
Defined.

(** X15: for such a window [rolling_mean] puts [length] NaNs in front of
    as many numbers as [moving_average] returns, and [remove_nan] takes
    the NaNs off and keeps the numbers as they stand. *)
Theorem rolling_mean_moving_average (values : list Q) (length : Z) :
  (1 <= length <= Z.of_nat (List.length values))%Z ->
  exists m r,
    Np.moving_average values length = Np.Return m /\
    Np.rolling_mean values length =
      Np.Return (replicate (Z.to_nat length) None ++ map Some r) /\
    List.length r = List.length m /\
    Np.remove_nan (replicate (Z.to_nat length) None ++ map Some r) =
      map Some r.
Proof.
  intros HL. eexists. eexists. split; [now apply moving_average_means|].
  split; [rewrite rolling_mean_run by exact HL; now rewrite <- map_map|].
  split; [now rewrite !length_map|apply remove_nan_padded].
Qed.

Lemma rolling_mean_moving_average_witness :
  (1 <= 3 <= Z.of_nat (List.length [1; 2; 3; 4]%Q))%Z /\
  exists m r,
    Np.moving_average [1; 2; 3; 4]%Q 3 = Np.Return m /\
    Np.rolling_mean [1; 2; 3; 4]%Q 3 =
      Np.Return (replicate (Z.to_nat 3) None ++ map Some r) /\
    List.length r = List.length m /\
    Np.remove_nan (replicate (Z.to_nat 3) None ++ map Some r) = map Some r.
Proof.
  split; [cbn; lia|].
  apply (rolling_mean_moving_average [1; 2; 3; 4]%Q 3). cbn. lia.
Defined.

(** X16: a window longer than the series gives [length] NaNs and
    nothing else. *)
Theorem rolling_mean_long_window (values : list Q) (length : Z) :
  (Z.of_nat (List.length values) < length)%Z ->
  Np.rolling_mean values length =
  Np.Return (replicate (Z.to_nat length) None).
Proof.
  intros HL. unfold Np.rolling_mean, Np.slice_from, Np.slice_to.
  set (n := List.length values) in *.
  set (ret := Np.np_cumsum values).
  assert (Hret : List.length ret = n) by apply length_cumsum_from.
  rewrite Hret, slice_bound_pos, slice_bound_neg by lia.
  rewrite (drop_ge ret) by lia.
  replace (n - Z.to_nat (- - length))%nat with 0%nat by lia.
  rewrite take_0. cbn [List.length Nat.eqb zip_with].
  rewrite app_nil_r, Nat.sub_0_r, take_ge by lia.
  rewrite Hret, slice_bound_pos by lia.
  rewrite (drop_ge ret) by lia. cbn [map]. now rewrite app_nil_r.
Qed.

Lemma rolling_mean_long_window_witness :
  (Z.of_nat (List.length [1; 2]%Q) < 5)%Z /\
  Np.rolling_mean [1; 2]%Q 5 = Np.Return (replicate (Z.to_nat 5) None).
Proof.
  split; [cbn; lia|]. apply (rolling_mean_long_window [1; 2]%Q 5). cbn. lia.
Defined.

(** X17: [rolling_mean] raises exactly when the window is 0 and the
    series is not empty, and what it raises is [ValueError]. *)
Theorem rolling_mean_errors (values : list Q) (length : Z) :
  (Np.rolling_mean values length = Np.Raises Np.ValueError <->
   length = 0%Z /\ values <> []) /\
  Np.rolling_mean values length <> Np.Raises Np.IndexError.
Proof.
  unfold Np.rolling_mean, Np.slice_from, Np.slice_to.
  set (n := List.length values) in *.
  set (ret := Np.np_cumsum values).
  assert (Hret : List.length ret = n) by apply length_cumsum_from.
  assert (Hn : n = 0%nat <-> values = [])
    by (unfold n; destruct values; cbn; split; (lia || easy)).
  rewrite length_drop, length_take, Hret.
  destruct (Z.lt_trichotomy length 0) as [L|[->|L]].
  - rewrite (slice_bound_neg n length), (slice_bound_pos n (- length)) by lia.
    replace (n - (n - Z.to_nat (- length)) =?
             Nat.min (Nat.min (Z.to_nat (- length)) n) n)%nat
      with true by (symmetry; apply Nat.eqb_eq; lia).
    split; [|discriminate]. split; [discriminate | lia].
  - change (Np.slice_bound n (- 0)) with 0%nat.
    change (Np.slice_bound n 0) with 0%nat.
    rewrite Nat.sub_0_r. change (Nat.min 0 n) with 0%nat.
    destruct (n =? 0)%nat eqn:E.
    + apply Nat.eqb_eq in E. split; [|discriminate].
      split; [discriminate|]. intros [_ Hv]. now apply Hn in E.
    + apply Nat.eqb_neq in E. split; [|discriminate].
      split; [|reflexivity]. intros _. split; [reflexivity|].
      intros Hv. now apply Hn in Hv.
  - rewrite (slice_bound_pos n length), (slice_bound_neg n (- length)) by lia.
    replace (n - Nat.min (Z.to_nat length) n =?
             Nat.min (n - Z.to_nat (- - length)) n)%nat
      with true by (symmetry; apply Nat.eqb_eq; lia).
    split; [|discriminate]. split; [discriminate | lia].
Qed.

(** ** [ExpMovingAverage] and [macd] *)

Section ExpFacts.

Variable np_exp : Q -> Q.

Lemma ema_weights_length w :
  (0 <= w)%Z -> length (Np.ema_weights np_exp w) = Z.to_nat w.
Proof.
  intros H. unfold Np.ema_weights, Np.np_linspace.
  assert (E : (w <? 0)%Z = false) by lia. rewrite E.
  now rewrite !length_map, length_seq.
Qed.

Lemma ExpMovingAverage_unfold values w :
  (0 <= w)%Z ->
  Np.ExpMovingAverage np_exp values w =
  Np.rbind (Np.np_convolve values (Np.ema_weights np_exp w) Np.Full)
    (fun c =>
       let a := Np.slice_to c (Z.of_nat (length values)) in
       match a !! Z.to_nat w with
       | Some a_w =>
           Np.Return (replicate (length (Np.slice_to a w)) a_w ++
                      Np.slice_from a w)
       | None => Np.Raises Np.IndexError
       end).
Proof.
  intros H. unfold Np.ExpMovingAverage, Np.ema_weights, Np.np_linspace.
  assert (E : (w <? 0)%Z = false) by lia. now rewrite E.
Qed.

Lemma slice_to_conv (conv : nat -> Q) n m :
  (n <= m)%nat ->
  Np.slice_to (map conv (seq 0 m)) (Z.of_nat n) = map conv (seq 0 n).
Proof.
  intros H. unfold Np.slice_to.
  rewrite length_map, length_seq, slice_bound_pos, Nat2Z.id by lia.
  replace (Nat.min n m) with n by lia.
  change (map conv ?l) with (conv <$> l).
  rewrite <- fmap_take, take_seq. now replace (Nat.min n m) with n by lia.
Qed.

Lemma ExpMovingAverage_defined values w :
  (1 <= w < Z.of_nat (length values))%Z ->
  Np.ExpMovingAverage np_exp values w =
  Np.Return
    (replicate (Z.to_nat w)
       (Np.conv_at values (Np.ema_weights np_exp w) (Z.to_nat w)) ++
     map (Np.conv_at values (Np.ema_weights np_exp w))
       (seq (Z.to_nat w) (length values - Z.to_nat w))).
Proof.
  intros Hw. rewrite ExpMovingAverage_unfold by lia.
  set (wts := Np.ema_weights np_exp w).
  assert (Lw : length wts = Z.to_nat w) by (apply ema_weights_length; lia).
  rewrite np_convolve_run;
    [|destruct values; [cbn in Hw; lia | easy]
     |destruct wts; [cbn in Lw; lia | easy]].
  cbn [Np.rbind]. cbv zeta. rewrite slice_to_conv by lia.
  set (conv := Np.conv_at values wts).
  assert (E : map conv (seq 0 (length values)) !! Z.to_nat w =
              Some (conv (Z.to_nat w))).
  { change (map conv ?l) with (conv <$> l).
    rewrite list_lookup_fmap, lookup_seq_lt by lia. reflexivity. }
  rewrite E. unfold Np.slice_to, Np.slice_from.
  rewrite length_map, length_seq, slice_bound_pos by lia.
  replace (Nat.min (Z.to_nat w) (length values)) with (Z.to_nat w) by lia.
  rewrite length_take, length_map, length_seq.
  replace (Nat.min (Z.to_nat w) (length values)) with (Z.to_nat w) by lia.
  f_equal. f_equal.
  change (map conv ?l) with (conv <$> l).
  now rewrite <- fmap_drop, drop_seq.
Qed.

Lemma ExpMovingAverage_index_error values w :
  (1 <= w)%Z -> values <> [] -> (Z.of_nat (length values) <= w)%Z ->
  Np.ExpMovingAverage np_exp values w = Np.Raises Np.IndexError.
Proof.
  intros Hw Hv Hn. rewrite ExpMovingAverage_unfold by lia.
  set (wts := Np.ema_weights np_exp w).
  assert (Lw : length wts = Z.to_nat w) by (apply ema_weights_length; lia).
  rewrite np_convolve_run;
    [|exact Hv | destruct wts; [cbn in Lw; lia | easy]].
  cbn [Np.rbind]. cbv zeta. rewrite slice_to_conv by lia.
  rewrite lookup_ge_None_2; [reflexivity|].
  rewrite length_map, length_seq. lia.
Qed.

Lemma ExpMovingAverage_value_error values w :
  (w <= 0)%Z \/ values = [] ->
  Np.ExpMovingAverage np_exp values w = Np.Raises Np.ValueError.
Proof.
  intros H. destruct (Z.ltb_spec w 0) as [L|G].
  - unfold Np.ExpMovingAverage, Np.np_linspace.
    assert (E : (w <? 0)%Z = true) by lia. now rewrite E.
  - rewrite ExpMovingAverage_unfold by lia.
    rewrite np_convolve_empty; [reflexivity|].
    destruct H as [H | ->]; [right | now left].
    pose proof (ema_weights_length w G) as Lw.
    destruct (Np.ema_weights np_exp w); [reflexivity | cbn in Lw; lia].
Qed.

End ExpFacts.

(** X18: with [1 <= w < len(values)], [ExpMovingAverage] returns
    [len(values)] entries: entry [i >= w] is entry [i] of the
    convolution of the series with the weights, and the first [w]
    entries are copies of entry [w]. *)
Theorem ExpMovingAverage_shape (np_exp : Q -> Q) (values : list Q) (w : Z) :
  (1 <= w < Z.of_nat (length values))%Z ->
  exists a,
    Np.ExpMovingAverage np_exp values w = Np.Return a /\
    length a = length values /\
    (forall i, (i <= Z.to_nat w)%nat ->
       a !! i =
       Some (Np.conv_at values (Np.ema_weights np_exp w) (Z.to_nat w))) /\
    (forall i, (Z.to_nat w <= i < length values)%nat ->
       a !! i = Some (Np.conv_at values (Np.ema_weights np_exp w) i)).
Proof.
  intros Hw. eexists. split; [now apply ExpMovingAverage_defined|].
  set (conv := Np.conv_at values (Np.ema_weights np_exp w)).
  assert (Tail : forall i, (Z.to_nat w <= i < length values)%nat ->
    (replicate (Z.to_nat w) (conv (Z.to_nat w)) ++
     map conv (seq (Z.to_nat w) (length values - Z.to_nat w))) !! i =
    Some (conv i)).
  { intros i Hi. rewrite lookup_app_r by (rewrite length_replicate; lia).
    rewrite length_replicate. change (map conv ?l) with (conv <$> l).
    rewrite list_lookup_fmap, lookup_seq_lt by lia.
    now replace (Z.to_nat w + (i - Z.to_nat w))%nat with i by lia. }
  split; [|split; [|exact Tail]].
  - rewrite length_app, length_replicate, length_map, length_seq. lia.
  - intros i Hi. destruct (Nat.eq_dec i (Z.to_nat w)) as [->|Hne].
    + apply Tail. lia.
    + rewrite lookup_app_l by (rewrite length_replicate; lia).
      apply lookup_replicate_2. lia.
Qed.

Lemma ExpMovingAverage_shape_witness :
  (1 <= 2 < Z.of_nat (length [1; 2; 3; 4; 5]%Q))%Z /\
  exists a,
    Np.ExpMovingAverage (fun x => 1 + x * x)%Q [1; 2; 3; 4; 5]%Q 2 =
      Np.Return a /\
    length a = length [1; 2; 3; 4; 5]%Q /\
    (forall i, (i <= Z.to_nat 2)%nat ->
       a !! i =
       Some (Np.conv_at [1; 2; 3; 4; 5]%Q
               (Np.ema_weights (fun x => 1 + x * x)%Q 2) (Z.to_nat 2))) /\
    (forall i, (Z.to_nat 2 <= i < length [1; 2; 3; 4; 5]%Q)%nat ->
       a !! i =
       Some (Np.conv_at [1; 2; 3; 4; 5]%Q
               (Np.ema_weights (fun x => 1 + x * x)%Q 2) i)).
Proof.
  split; [cbn; lia|].
  apply (ExpMovingAverage_shape (fun x => 1 + x * x)%Q [1; 2; 3; 4; 5]%Q 2).
  cbn. lia.
Defined.

(** X19: [ExpMovingAverage] raises [IndexError] exactly when the series
    is not empty and has at most [w] samples ([a[w]] is out of bounds),
    and [ValueError] exactly when [w] is not positive or the series is
    empty. *)
Theorem ExpMovingAverage_errors (np_exp : Q -> Q) (values : list Q) (w : Z) :
  (Np.ExpMovingAverage np_exp values w = Np.Raises Np.IndexError <->
   (1 <= w)%Z /\ values <> [] /\ (Z.of_nat (length values) <= w)%Z) /\
  (Np.ExpMovingAverage np_exp values w = Np.Raises Np.ValueError <->
   (w <= 0)%Z \/ values = []).
Proof.
  destruct (Z_le_gt_dec w 0) as [Hw|Hw].
  { rewrite ExpMovingAverage_value_error by now left.
    split; (split; [try discriminate | try lia]); [now left | reflexivity]. }
  destruct values as [|v values].
  { rewrite ExpMovingAverage_value_error by now right.
    split; (split; [try discriminate | try easy]); now right. }
  destruct (Z_le_gt_dec (Z.of_nat (length (v :: values))) w) as [Hn|Hn].
  - rewrite ExpMovingAverage_index_error by (try discriminate; lia).
    split; (split; [try discriminate | try reflexivity]).
    + intros _. split; [lia|]. split; [discriminate | exact Hn].
    + intros [H|H]; [lia | discriminate H].
  - rewrite ExpMovingAverage_defined by lia.
    split; (split; [discriminate|]).
    + intros (_ & _ & H). lia.
    + intros [H|H]; [lia | discriminate H].
Qed.

Lemma macd_run (np_exp : Q -> Q) (values : list Q) :
  (26 < Z.of_nat (length values))%Z ->
  exists emaslow emafast,
    Np.ExpMovingAverage np_exp values 12 = Np.Return emaslow /\
    Np.ExpMovingAverage np_exp values 26 = Np.Return emafast /\
    Np.macd np_exp values =
      Np.Return (emaslow, emafast, zip_with Qminus emafast emaslow) /\
    length emaslow = length values /\ length emafast = length values.
Proof.
  intros Hn. unfold Np.macd.
  rewrite (ExpMovingAverage_defined np_exp values 12) by lia.
  rewrite (ExpMovingAverage_defined np_exp values 26) by lia.
  do 2 eexists. repeat split;
    rewrite length_app, length_replicate, length_map, length_seq; lia.
Qed.

(** X20: on a series of more than 26 samples [macd] returns the
    [ExpMovingAverage] with [w = 12], the one with [w = 26], and their
    difference entry by entry (the second minus the first); each of the
    three has [len(values)] entries. *)
Theorem macd_shape (np_exp : Q -> Q) (values : list Q) :
  (26 < Z.of_nat (length values))%Z ->
  exists emaslow emafast diff,
    Np.macd np_exp values = Np.Return (emaslow, emafast, diff) /\
    Np.ExpMovingAverage np_exp values 12 = Np.Return emaslow /\
    Np.ExpMovingAverage np_exp values 26 = Np.Return emafast /\
    length emaslow = length values /\
    length emafast = length values /\
    length diff = length values /\
    forall i, (i < length values)%nat ->
      nth i diff 0%Q = (nth i emafast 0 - nth i emaslow 0)%Q.
Proof.
  intros Hn.
  destruct (macd_run np_exp values Hn) as (slow & fast & H1 & H2 & H3 & L1 & L2).
  exists slow, fast, (zip_with Qminus fast slow).
  repeat split; try assumption.
  - rewrite length_zip_with. lia.
  - intros i Hi. apply nth_zip_with_minus; lia.
Qed.

Lemma macd_shape_witness :
  (26 < Z.of_nat (length (replicate 27 1%Q)))%Z /\
  exists emaslow emafast diff,
    Np.macd (fun x => 1 + x * x)%Q (replicate 27 1%Q) =
      Np.Return (emaslow, emafast, diff) /\
    Np.ExpMovingAverage (fun x => 1 + x * x)%Q (replicate 27 1%Q) 12 =
      Np.Return emaslow /\
    Np.ExpMovingAverage (fun x => 1 + x * x)%Q (replicate 27 1%Q) 26 =
      Np.Return emafast /\
    length emaslow = length (replicate 27 1%Q) /\
    length emafast = length (replicate 27 1%Q) /\
    length diff = length (replicate 27 1%Q) /\
    forall i, (i < length (replicate 27 1%Q))%nat ->
      nth i diff 0%Q = (nth i emafast 0 - nth i emaslow 0)%Q.
Proof.
  split; [cbn; lia|].
  apply (macd_shape (fun x => 1 + x * x)%Q (replicate 27 1%Q)). cbn. lia.
Defined.

(** X21: [macd] raises [IndexError] exactly on a series of 1 to 26
    samples and [ValueError] exactly on the empty series. *)
Theorem macd_errors (np_exp : Q -> Q) (values : list Q) :
  (Np.macd np_exp values = Np.Raises Np.IndexError <->
   (1 <= length values <= 26)%nat) /\
  (Np.macd np_exp values = Np.Raises Np.ValueError <-> values = []).
Proof.
  destruct values as [|v values].
  { unfold Np.macd. rewrite ExpMovingAverage_value_error by now right.
    cbn [Np.rbind length].
    split; split; try discriminate; intros; try reflexivity; lia. }
  set (vs := v :: values).
  assert (Hv : vs <> []) by easy.
  assert (H1 : (1 <= length vs)%nat) by (cbn; lia).
  destruct (Z_le_gt_dec (Z.of_nat (length vs)) 12) as [A|A].
  { unfold Np.macd. rewrite ExpMovingAverage_index_error by (try easy; lia).
    cbn [Np.rbind].
    split; split; try discriminate; intros; try reflexivity;
      try contradiction; lia. }
  destruct (Z_le_gt_dec (Z.of_nat (length vs)) 26) as [B|B].
  { unfold Np.macd. rewrite (ExpMovingAverage_defined np_exp vs 12) by lia.
    cbn [Np.rbind]. rewrite ExpMovingAverage_index_error by (try easy; lia).
    cbn [Np.rbind].
    split; split; try discriminate; intros; try reflexivity;
      try contradiction; lia. }
  destruct (macd_run np_exp vs) as (slow & fast & _ & _ & -> & _); [lia|].
  split; split; try discriminate; intros; try contradiction; lia.
Qed.
